(** * Delegation nodes of the KILT SDK: a shallow embedding

    The class [DelegationNode] (module DelegationNode) is a client-side view
    of one node of a delegation hierarchy stored on chain.  Its methods are asynchronous: they query the chain, update the
    fields cached on the object and resolve to a value or reject with an
    SDK error.

    The embedding keeps that shape:
    - a node object is a record; a method that assigns to a field of [this]
      returns the updated object next to its result;
    - the chain is a finite map from identifiers to records, read-only for
      the duration of one call;
    - an asynchronous method is a function of the chain that yields the
      queries it sent, in order, and the way its promise settled;
    - the two recursive methods follow links stored on chain, which the
      code does not guard against cycles, so they take a recursion budget
      and stay pending when it is exhausted. *)

From Stdlib Require Import ZArith Lia.
From stdpp Require Import base option list strings gmap.

Set Default Proof Using "Type".
Open Scope string_scope.
Open Scope list_scope.

(** ** Data model *)

Definition NodeId := string.
Definition HierarchyId := string.
Definition Did := string.
Definition Hash := string.
Definition u8a := list Byte.byte.

(** The two delegation permissions, with the bit each one stands for. *)
Inductive Permission := ATTEST | DELEGATE.

Definition permissionBit (p : Permission) : Z :=
  match p with
  | ATTEST => Z.shiftl 1 0
  | DELEGATE => Z.shiftl 1 1
  end.

(** [IDelegationHierarchyDetails]: [{ id, cTypeHash }]. *)
Record IDelegationHierarchyDetails := {
  details_id : HierarchyId;
  cTypeHash : Hash
}.

(** [IDelegationNode], the argument of the constructor.  An optional
    [parentId] is an [option]; identifiers are non-empty hex strings, so a
    present identifier is truthy. *)
Record IDelegationNode := {
  i_id : NodeId;
  i_hierarchyId : HierarchyId;
  i_parentId : option NodeId;
  i_childrenIds : list NodeId;
  i_account : Did;
  i_permissions : list Permission;
  i_revoked : bool
}.

(** The fields of a [DelegationNode] object. *)
Record DelegationNode := {
  id : NodeId;
  hierarchyId : HierarchyId;
  parentId : option NodeId;
  childrenIdentifiers : list NodeId;
  account : Did;
  permissions : list Permission;
  hierarchyDetails : option IDelegationHierarchyDetails;
  revoked : bool
}.

(** [get childrenIds()] *)
Definition childrenIds (this : DelegationNode) : list NodeId :=
  childrenIdentifiers this.

Definition set_childrenIdentifiers (this : DelegationNode) (ids : list NodeId)
  : DelegationNode :=
  {| id := id this; hierarchyId := hierarchyId this; parentId := parentId this;
     childrenIdentifiers := ids; account := account this;
     permissions := permissions this;
     hierarchyDetails := hierarchyDetails this; revoked := revoked this |}.

Definition set_hierarchyDetails (this : DelegationNode)
    (d : IDelegationHierarchyDetails) : DelegationNode :=
  {| id := id this; hierarchyId := hierarchyId this; parentId := parentId this;
     childrenIdentifiers := childrenIdentifiers this; account := account this;
     permissions := permissions this;
     hierarchyDetails := Some d; revoked := revoked this |}.

(** The signature of the delegate: [{ [alg]: signature }]. *)
Record SignatureEnum := {
  sig_alg : string;
  sig_bytes : u8a
}.

(** Errors a method rejects with.  [InvalidNode] is the name the
    specification gives to a failed construction check; [TypeError] is what
    [Array.prototype.reduce] throws on an empty array without initial
    value. *)
Inductive SDKError :=
| ERROR_HIERARCHY_QUERY (h : HierarchyId)
| ERROR_DELEGATION_ID_MISSING
| ERROR_DELEGATION_SIGNATURE_MISSING
| ERROR_UNAUTHORIZED (msg : string)
| InvalidNode
| TypeError.

(** Unsigned extrinsics, one constructor per builder of
    DelegationNode.chain. *)
Inductive SubmittableExtrinsic :=
| storeAsRoot (node : DelegationNode)
| storeAsDelegation (node : DelegationNode) (signature : SignatureEnum)
| revokeTx (delegationId : NodeId) (maxDepth maxRevocations : nat)
| removeTx (delegationId : NodeId) (maxRemovals : nat)
| reclaimDepositTx (delegationId : NodeId) (maxRemovals : nat).

(** ** The chain and asynchronous computations *)

Record Ledger := {
  delegationNodes : gmap NodeId DelegationNode;
  hierarchies : gmap HierarchyId IDelegationHierarchyDetails
}.

Inductive Event :=
| QueryNode (i : NodeId)
| QueryHierarchy (h : HierarchyId).

Inductive Outcome (A : Type) :=
| Resolved (a : A)
| Rejected (e : SDKError)
| Pending.
Arguments Resolved {A} a.
Arguments Rejected {A} e.
Arguments Pending {A}.

Definition Async (A : Type) : Type := Ledger -> list Event * Outcome A.

Definition ret {A} (a : A) : Async A := fun _ => ([], Resolved a).
Definition throw {A} (e : SDKError) : Async A := fun _ => ([], Rejected e).
Definition pending {A} : Async A := fun _ => ([], Pending).

Definition bind {A B} (m : Async A) (k : A -> Async B) : Async B :=
  fun L =>
    match m L with
    | (es, Resolved a) => let '(es', r) := k a L in (es ++ es', r)
    | (es, Rejected e) => (es, Rejected e)
    | (es, Pending) => (es, Pending)
    end.

Declare Scope async_scope.
Delimit Scope async_scope with async.
Notation "x <- m ; k" := (bind m (fun x => k))
  (at level 20, m at level 100, k at level 200, only parsing) : async_scope.
Notation "' pat <- m ; k" := (bind m (fun x => match x with pat => k end))
  (at level 20, pat pattern, m at level 100, k at level 200, only parsing)
  : async_scope.
Open Scope async_scope.

Definition events {A} (r : list Event * Outcome A) : list Event := fst r.
Definition outcome {A} (r : list Event * Outcome A) : Outcome A := snd r.

(** [Promise.all(xs.map(f))].  The calls run concurrently; on a chain that
    does not change during the call they resolve to what they resolve to
    when taken in array order, which is how they are taken here: the trace
    lists the queries call by call, and ends with those of the first call
    that does not resolve. *)
Fixpoint all {A B} (f : A -> Async B) (xs : list A) : Async (list B) :=
  match xs with
  | [] => ret []
  | x :: rest =>
      b <- f x ;
      bs <- all f rest ;
      ret (b :: bs)
  end.

(** Synchronous code either completes or throws. *)
Inductive Completion (A : Type) :=
| Normal (a : A)
| Throws (e : SDKError).
Arguments Normal {A} a.
Arguments Throws {A} e.

Definition settle {A} (c : Completion A) : Async A :=
  match c with
  | Normal a => ret a
  | Throws e => throw e
  end.

(** ** Collaborators that are not part of the class *)

(** Modelled from the spec: DelegationNode.chain is missing from the
    sources; [query] is the ledger's [queryNode(id) -> DelegationNode | None]. *)
Definition query (delegationId : NodeId) : Async (option DelegationNode) :=
  fun L => ([QueryNode delegationId], Resolved (delegationNodes L !! delegationId)).

(** Modelled from the spec: DelegationHierarchyDetails.chain is missing from
    the sources; [queryDetails] is the ledger's
    [queryHierarchyDetails(hierarchyId) -> HierarchyDetails | None]. *)
Definition queryDetails (h : HierarchyId)
  : Async (option IDelegationHierarchyDetails) :=
  fun L => ([QueryHierarchy h], Resolved (hierarchies L !! h)).

(** Modelled from the spec: the function [getChildren] of DelegationNode.chain
    is missing from the sources; it resolves each child id of the node to its
    full record via the ledger, in the order of the ids, and an expected node
    that is absent is surfaced as an error, the one [getLatestState] rejects
    with in the same situation. *)
Definition chain_getChildren (delegationNode : DelegationNode)
  : Async (list DelegationNode) :=
  all (fun childId =>
         childNode <- query childId ;
         match childNode with
         | None => throw ERROR_DELEGATION_ID_MISSING
         | Some c => ret c
         end)
      (childrenIds delegationNode).

(** Modelled from the spec: the function [errorCheck] of DelegationNode.utils
    is missing from the sources; construction validates structural
    consistency: a node claiming to be root ([id == hierarchyId]) must have
    no [parentId], and vice versa, and a violation fails with [InvalidNode]. *)
Definition errorCheck (n : DelegationNode) : Completion unit :=
  if String.eqb (id n) (hierarchyId n)
  then match parentId n with
       | Some _ => Throws InvalidNode
       | None => Normal tt
       end
  else match parentId n with
       | Some _ => Normal tt
       | None => Throws InvalidNode
       end.

(** Modelled from the spec: the function [permissionsAsBitset] of
    DelegationNode.utils is missing from the sources; it is the byte encoding
    of the permission bitset of the node, the union of the bits of its
    permissions, as one little-endian bitset byte. *)
Definition permissionsBitset (ps : list Permission) : Z :=
  fold_left (fun acc p => Z.lor acc (permissionBit p)) ps 0%Z.

Definition permissionsAsBitset (n : DelegationNode) : u8a :=
  match Byte.of_N (Z.to_N (permissionsBitset (permissions n))) with
  | Some b => [b]
  | None => []
  end.

(** The functions of [Crypto] (package utils) that [generateHash] calls:
    the conversion of a string to bytes, the hash function with its bit
    length, and the hex encoding.  They are an interface here. *)
Class CryptoLib := {
  coToUInt8 : string -> u8a;
  hash : u8a -> nat -> u8a;
  u8aToHex : u8a -> string
}.

(** [Crypto.u8aConcat(...arrays)] *)
Definition u8aConcat (arrays : list u8a) : u8a := concat arrays.

(** ** The class *)

(** [new DelegationNode({ id, hierarchyId, parentId, childrenIds, account,
    permissions, revoked })] *)
Definition new_DelegationNode (i : IDelegationNode) : Completion DelegationNode :=
  let this :=
    {| id := i_id i; hierarchyId := i_hierarchyId i; parentId := i_parentId i;
       childrenIdentifiers := i_childrenIds i; account := i_account i;
       permissions := i_permissions i; hierarchyDetails := None;
       revoked := i_revoked i |} in
  match errorCheck this with
  | Normal _ => Normal this
  | Throws e => Throws e
  end.

(** [NewDelegationNodeInput]: all four fields are required. *)
Record NewDelegationNodeInput := {
  n_hierarchyId : HierarchyId;
  n_parentId : NodeId;
  n_account : Did;
  n_permissions : list Permission
}.

(** [NewDelegationRootInput] *)
Record NewDelegationRootInput := {
  r_account : Did;
  r_permissions : list Permission;
  r_cTypeHash : Hash
}.

(** [DelegationNode.newNode]; [uuid] is the value of [UUID.generate()]. *)
Definition newNode (uuid : NodeId) (input : NewDelegationNodeInput)
  : Completion DelegationNode :=
  new_DelegationNode
    {| i_id := uuid; i_hierarchyId := n_hierarchyId input;
       i_parentId := Some (n_parentId input); i_account := n_account input;
       i_permissions := n_permissions input; i_childrenIds := [];
       i_revoked := false |}.

(** [DelegationNode.newRoot]; [uuid] is the value of [UUID.generate()]. *)
Definition newRoot (uuid : NodeId) (input : NewDelegationRootInput)
  : Completion DelegationNode :=
  let nodeId := uuid in
  match new_DelegationNode
          {| i_id := nodeId; i_hierarchyId := nodeId; i_parentId := None;
             i_account := r_account input;
             i_permissions := r_permissions input; i_childrenIds := [];
             i_revoked := false |} with
  | Normal newNode =>
      Normal (set_hierarchyDetails newNode
                {| details_id := nodeId; cTypeHash := r_cTypeHash input |})
  | Throws e => Throws e
  end.

(** [getHierarchyDetails]: the result comes with the object, whose cache the
    method may have filled. *)
Definition getHierarchyDetails (this : DelegationNode)
  : Async (DelegationNode * IDelegationHierarchyDetails) :=
  match hierarchyDetails this with
  | None =>
      fetched <- queryDetails (hierarchyId this) ;
      match fetched with
      | None => throw (ERROR_HIERARCHY_QUERY (hierarchyId this))
      | Some d => ret (set_hierarchyDetails this d, d)
      end
  | Some d => ret (this, d)
  end.

(** [getCTypeHash] *)
Definition getCTypeHash (this : DelegationNode) : Async (DelegationNode * Hash) :=
  '(this', details) <- getHierarchyDetails this ;
  ret (this', cTypeHash details).

(** [getParent] *)
Definition getParent (this : DelegationNode) : Async (option DelegationNode) :=
  match parentId this with
  | Some p => query p
  | None => ret None
  end.

(** [getChildren]: the result comes with the object, whose
    [childrenIdentifiers] the method may have replaced. *)
Definition getChildren (this : DelegationNode)
  : Async (DelegationNode * list DelegationNode) :=
  refreshedNodeDetails <- query (id this) ;
  let this' :=
    match refreshedNodeDetails with
    | Some refreshed => set_childrenIdentifiers this (childrenIds refreshed)
    | None => this
    end in
  children <- chain_getChildren this' ;
  ret (this', children).

(** [generateHash]; the call of the logger is left out. *)
Definition generateHash `{CryptoLib} (this : DelegationNode) : string :=
  let propsToHash := [id this; hierarchyId this] in
  let propsToHash :=
    match parentId this with
    | Some p => propsToHash ++ [p]
    | None => propsToHash
    end in
  let uint8Props := map (fun value => coToUInt8 value) propsToHash in
  let uint8Props := uint8Props ++ [permissionsAsBitset this] in
  u8aToHex (hash (u8aConcat uint8Props) 256).


(** [isRoot] *)
Definition isRoot (this : DelegationNode) : bool :=
  String.eqb (id this) (hierarchyId this)
  && match parentId this with Some _ => false | None => true end.

(** [store] *)
Definition store (this : DelegationNode) (signature : option SignatureEnum)
  : Async SubmittableExtrinsic :=
  if isRoot this then ret (storeAsRoot this)
  else match signature with
       | None => throw ERROR_DELEGATION_SIGNATURE_MISSING
       | Some s => ret (storeAsDelegation this s)
       end.


(** The object [{ steps, node }] that [findAncestorOwnedBy] resolves to. *)
Record Ancestor := {
  steps : nat;
  node : option DelegationNode
}.

(** [findAncestorOwnedBy]; every call spends one unit of [fuel]. *)
Fixpoint findAncestorOwnedBy (fuel : nat) (this : DelegationNode) (did : Did)
  : Async Ancestor :=
  match fuel with
  | O => pending
  | S fuel' =>
      if String.eqb (account this) did
      then ret {| steps := 0; node := Some this |}
      else
        parent <- getParent this ;
        match parent with
        | Some p =>
            result <- findAncestorOwnedBy fuel' p did ;
            ret {| steps := steps result + 1; node := node result |}
        | None => ret {| steps := 0; node := None |}
        end
  end.

(** [xs.reduce((previous, current) => previous + current)] *)
Definition reduce_add (xs : list nat) : Completion nat :=
  match xs with
  | [] => Throws TypeError
  | x :: rest => Normal (fold_left (fun previous current => previous + current) rest x)
  end.

(** [subtreeNodeCount]; every call spends one unit of [fuel].  The child
    objects are local to the call, so their updated copies are dropped. *)
Fixpoint subtreeNodeCount (fuel : nat) (this : DelegationNode)
  : Async (DelegationNode * nat) :=
  match fuel with
  | O => pending
  | S fuel' =>
      '(this', children) <- getChildren this ;
      if Nat.eqb (length children) 0
      then ret (this', 0)
      else
        childrensChildCounts <-
          all (fun child =>
                 '(_, count) <- subtreeNodeCount fuel' child ;
                 ret count)
              children ;
        total <- settle (reduce_add childrensChildCounts) ;
        ret (this', length children + total)
  end.

Definition unauthorizedMessage (did : Did) : string :=
  String.append "The DID "
    (String.append did
       " is not among the delegators and may not revoke this node").

(** [revoke]; the call of the logger is left out. *)
Definition revoke (fuel : nat) (this : DelegationNode) (did : Did)
  : Async (DelegationNode * SubmittableExtrinsic) :=
  found <- findAncestorOwnedBy fuel this did ;
  match node found with
  | None => throw (ERROR_UNAUTHORIZED (unauthorizedMessage did))
  | Some _ =>
      '(this', childCount) <- subtreeNodeCount fuel this ;
      ret (this', revokeTx (id this') (steps found) childCount)
  end.

(** [remove] *)
Definition remove (fuel : nat) (this : DelegationNode)
  : Async (DelegationNode * SubmittableExtrinsic) :=
  '(this', childCount) <- subtreeNodeCount fuel this ;
  ret (this', removeTx (id this') childCount).

(** [reclaimDeposit] *)
Definition reclaimDeposit (fuel : nat) (this : DelegationNode)
  : Async (DelegationNode * SubmittableExtrinsic) :=
  '(this', childCount) <- subtreeNodeCount fuel this ;
  ret (this', reclaimDepositTx (id this') childCount).

(** ** Vocabulary of the statements *)

(** The child ids [getChildren] resolves: those of the record the chain holds
    for the node, and the cached ones when the chain holds none. *)
Definition refreshedChildrenIds (L : Ledger) (this : DelegationNode)
  : list NodeId :=
  match delegationNodes L !! id this with
  | Some refreshed => childrenIds refreshed
  | None => childrenIds this
  end.

(** [owned_above L did n k a]: walking up the parent links of the chain from
    [n], the first node whose account is [did] is [a], [k] hops above [n]. *)
Inductive owned_above (L : Ledger) (did : Did)
  : DelegationNode -> nat -> DelegationNode -> Prop :=
| owned_here n :
    account n = did ->
    owned_above L did n 0 n
| owned_higher n p pn k a :
    account n <> did ->
    parentId n = Some p ->
    delegationNodes L !! p = Some pn ->
    owned_above L did pn k a ->
    owned_above L did n (S k) a.

(** [unowned_chain L did n k]: no node from [n] up to the topmost ancestor
    the chain still reaches is owned by [did], and that ancestor is [k] hops
    above [n]. *)
Inductive unowned_chain (L : Ledger) (did : Did)
  : DelegationNode -> nat -> Prop :=
| unowned_top n :
    account n <> did ->
    (parentId n = None \/
     exists p, parentId n = Some p /\ delegationNodes L !! p = None) ->
    unowned_chain L did n 0
| unowned_step n p pn k :
    account n <> did ->
    parentId n = Some p ->
    delegationNodes L !! p = Some pn ->
    unowned_chain L did pn k ->
    unowned_chain L did n (S k).

(** The part of a hierarchy below a node, as a finite tree. *)
#[warnings="-register-all"] Inductive Tree :=
| TNode (n : DelegationNode) (subtrees : list Tree).

Definition root (tr : Tree) : DelegationNode :=
  match tr with TNode n _ => n end.

Definition subtrees_of (tr : Tree) : list Tree :=
  match tr with TNode _ cs => cs end.

Fixpoint flatten (tr : Tree) : list DelegationNode :=
  match tr with
  | TNode n cs => n :: concat (map flatten cs)
  end.

(** Every node of the tree but its root. *)
Definition descendants (tr : Tree) : list DelegationNode :=
  concat (map flatten (subtrees_of tr)).

Fixpoint height (tr : Tree) : nat :=
  match tr with
  | TNode _ cs => S (fold_right Nat.max 0 (map height cs))
  end.

(** [unfolds L tr]: at every node of [tr], the subtrees are rooted at the
    records the chain resolves that node's children to, in the chain's
    order. *)
Fixpoint unfolds (L : Ledger) (tr : Tree) : Prop :=
  match tr with
  | TNode n cs =>
      map (fun c => Some (root c)) cs
      = map (fun i => delegationNodes L !! i) (refreshedChildrenIds L n)
      /\ (fix each (ts : list Tree) : Prop :=
            match ts with
            | [] => True
            | t :: rest => unfolds L t /\ each rest
            end) cs
  end.

(** [counted fuel L n k]: on chain [L], [subtreeNodeCount] of [n] resolves
    to [k]. *)
Definition counted (fuel : nat) (L : Ledger) (n : DelegationNode) (k : nat)
  : Prop :=
  exists es n', subtreeNodeCount fuel n L = (es, Resolved (n', k)).

(** ** A small hierarchy

    Root [R] of account [A], its child [C1] of account [B], and the child
    [C2] of [C1], of account [D]. *)

Definition nodeR : DelegationNode :=
  {| id := "0xR"; hierarchyId := "0xR"; parentId := None;
     childrenIdentifiers := ["0xC1"]; account := "did:kilt:A";
     permissions := [ATTEST; DELEGATE]; hierarchyDetails := None;
     revoked := false |}.

Definition nodeC1 : DelegationNode :=
  {| id := "0xC1"; hierarchyId := "0xR"; parentId := Some "0xR";
     childrenIdentifiers := ["0xC2"]; account := "did:kilt:B";
     permissions := [ATTEST]; hierarchyDetails := None;
     revoked := false |}.

Definition nodeC2 : DelegationNode :=
  {| id := "0xC2"; hierarchyId := "0xR"; parentId := Some "0xC1";
     childrenIdentifiers := []; account := "did:kilt:D";
     permissions := [ATTEST]; hierarchyDetails := None;
     revoked := false |}.

Definition detailsR : IDelegationHierarchyDetails :=
  {| details_id := "0xR"; cTypeHash := "0xCTYPE" |}.

Definition chain3 : Ledger :=
  {| delegationNodes :=
       <["0xR" := nodeR]> (<["0xC1" := nodeC1]> (<["0xC2" := nodeC2]> ∅));
     hierarchies := <["0xR" := detailsR]> ∅ |}.

Definition tree3 : Tree :=
  TNode nodeR [TNode nodeC1 [TNode nodeC2 []]].

(** The chain after [C1] was dropped from it. *)
Definition chainWithoutC1 : Ledger :=
  {| delegationNodes := <["0xR" := nodeR]> (<["0xC2" := nodeC2]> ∅);
     hierarchies := <["0xR" := detailsR]> ∅ |}.

(** [C2] as a caller constructed it, of another account. *)
Definition nodeC2' : DelegationNode :=
  {| id := "0xC2"; hierarchyId := "0xR"; parentId := Some "0xC1";
     childrenIdentifiers := ["0xC3"]; account := "did:kilt:E";
     permissions := [ATTEST]; hierarchyDetails := Some detailsR;
     revoked := true |}.

(** A stand-in for the functions of [Crypto], to run [generateHash] on the
    small hierarchy: the bytes of the string, no compression, and the bytes
    read back as a string. *)
Definition plainCrypto : CryptoLib :=
  {| coToUInt8 := String.list_byte_of_string;
     hash := fun bytes _ => bytes;
     u8aToHex := String.string_of_list_byte |}.

(** A node a caller constructed under [R] and has not stored; the caller
    listed [C2] among its children. *)
Definition draftNode : DelegationNode :=
  {| id := "0xNEW"; hierarchyId := "0xR"; parentId := Some "0xR";
     childrenIdentifiers := ["0xC2"]; account := "did:kilt:E";
     permissions := [ATTEST]; hierarchyDetails := None;
     revoked := false |}.

(** The reading of [getChildren] under which the children it resolves to are
    always those of the record the chain holds for the node. *)
Definition getChildren_follows_chain_record : Prop :=
  forall (this : DelegationNode) (L : Ledger) es this' children,
    getChildren this L = (es, Resolved (this', children)) ->
    exists refreshed,
      delegationNodes L !! id this = Some refreshed
      /\ childrenIds this' = childrenIds refreshed
      /\ map Some children
         = map (fun i => delegationNodes L !! i) (childrenIds refreshed).

(** The outcome of a computation, with its value mapped. *)
Definition Outcome_map {A B} (f : A -> B) (o : Outcome A) : Outcome B :=
  match o with
  | Resolved a => Resolved (f a)
  | Rejected e => Rejected e
  | Pending => Pending
  end.

(** [never_unauthorized m L]: on chain [L], the computation [m] does not
    reject with [ERROR_UNAUTHORIZED]. *)
Definition never_unauthorized {A} (m : Async A) (L : Ledger) : Prop :=
  forall msg, outcome (m L) <> Rejected (ERROR_UNAUTHORIZED msg).


(** A corrupted chain: two nodes of account [B] that name each other as
    parent. *)
Definition loopA : DelegationNode :=
  {| id := "0xA"; hierarchyId := "0xR"; parentId := Some "0xB";
     childrenIdentifiers := ["0xB"]; account := "did:kilt:B";
     permissions := [ATTEST]; hierarchyDetails := None;
     revoked := false |}.

Definition loopB : DelegationNode :=
  {| id := "0xB"; hierarchyId := "0xR"; parentId := Some "0xA";
     childrenIdentifiers := ["0xA"]; account := "did:kilt:B";
     permissions := [ATTEST]; hierarchyDetails := None;
     revoked := false |}.

Definition chainLoop : Ledger :=
  {| delegationNodes := <["0xA" := loopA]> (<["0xB" := loopB]> ∅);
     hierarchies := ∅ |}.

(** A copy of [R] taken before [C1] was stored: it lists no children. *)
Definition staleR : DelegationNode :=
  {| id := "0xR"; hierarchyId := "0xR"; parentId := None;
     childrenIdentifiers := []; account := "did:kilt:A";
     permissions := [ATTEST; DELEGATE]; hierarchyDetails := Some detailsR;
     revoked := false |}.



(** * Light DID creation options

    The functions of LightDidDetails.utils.  [Did.utils] and the CBOR
    library are not part of the sources; the functions taken from them are
    interfaces here. *)

(** [INewPublicKey] *)
Record INewPublicKey := {
  publicKey : u8a;
  key_type : string
}.

(** [IDidServiceEndpoint] *)
Record IDidServiceEndpoint := {
  service_id : string;
  service_types : list string;
  service_urls : list string
}.

(** [LightDidDetailsCreationOpts] *)
Record LightDidDetailsCreationOpts := {
  authenticationKey : INewPublicKey;
  encryptionKey : option INewPublicKey;
  serviceEndpoints : option (list IDidServiceEndpoint)
}.

Inductive DidType := light | full.

(** [IDidParsingResult] *)
Record IDidParsingResult := {
  parsed_did : string;
  parsed_version : nat;
  parsed_type : DidType;
  parsed_identifier : string;
  parsed_fragment : option string;
  parsed_encodedDetails : option string
}.

(** What [checkLightDidCreationOptions] throws: the SDK error for a key type
    without encoding, or a plain [Error] with its message. *)
Inductive LightDidError :=
| ERROR_UNSUPPORTED_KEY
| Error (message : string).

(** A call that returns nothing either returns or throws. *)
Inductive Checked :=
| Passes
| Fails (e : LightDidError).

(** The functions of [Did.utils] that the check calls.  [parseDidUrl] throws
    on a string that is not a DID URI: it yields no result then. *)
Class DidUtilsLib := {
  getEncodingForSigningKeyType : string -> option string;
  parseDidUrl : string -> option IDidParsingResult
}.

(** Truthiness of a string that may be undefined. *)
Definition truthy (s : option string) : bool :=
  match s with
  | Some s => negb (String.eqb s "")
  | None => false
  end.

(** [xs.forEach(callback)], up to the first call that throws. *)
Fixpoint forEach {A} (callback : A -> Checked) (xs : list A) : Checked :=
  match xs with
  | [] => Passes
  | x :: rest =>
      match callback x with
      | Passes => forEach callback rest
      | Fails e => Fails e
      end
  end.

Definition invalidServiceIdMessage (serviceId : string) : string :=
  String.append "Invalid service ID provided: "
    (String.append serviceId
       ". The service ID should be a simple identifier and not a complete DID URI.").

Definition reservedServiceIdMessage (serviceId : string) : string :=
  String.append "Cannot specify a service ID with the name "
    (String.append serviceId " as it is a reserved keyword.").

(** The callback that [checkLightDidCreationOptions] runs on each service. *)
Definition checkService `{DidUtilsLib} (service : IDidServiceEndpoint)
  : Checked :=
  let isServiceIdADid :=
    match parseDidUrl (service_id service) with
    | Some _ => true
    | None => false
    end in
  if isServiceIdADid
  then Fails (Error (invalidServiceIdMessage (service_id service)))
  else if String.eqb (service_id service) "authentication"
          || String.eqb (service_id service) "encryption"
  then Fails (Error (reservedServiceIdMessage (service_id service)))
  else Passes.

(** [checkLightDidCreationOptions] *)
Definition checkLightDidCreationOptions `{DidUtilsLib}
    (options : LightDidDetailsCreationOpts) : Checked :=
  let authenticationKeyTypeEncoding :=
    getEncodingForSigningKeyType (key_type (authenticationKey options)) in
  if negb (truthy authenticationKeyTypeEncoding)
  then Fails ERROR_UNSUPPORTED_KEY
  else match serviceEndpoints options with
       | None => Passes
       | Some services => forEach checkService services
       end.

(** The values of the map that is serialized. *)
Inductive MapValue :=
| KeyValue (key : INewPublicKey)
| EndpointsValue (services : list IDidServiceEndpoint).

(** A [Map<string, unknown>], in insertion order; also the object a payload
    decodes to, with its properties. *)
Definition JsMap := list (string * MapValue).

(** [map.set(key, value)] *)
Fixpoint Map_set (m : JsMap) (key : string) (value : MapValue) : JsMap :=
  match m with
  | [] => [(key, value)]
  | (k, v) :: rest =>
      if String.eqb k key then (k, value) :: rest
      else (k, v) :: Map_set rest key value
  end.

(** [payload[key]] *)
Fixpoint Object_get (payload : JsMap) (key : string) : option MapValue :=
  match payload with
  | [] => None
  | (k, v) :: rest => if String.eqb k key then Some v else Object_get rest key
  end.

(** The CBOR library and the base64 rendering of a buffer. *)
Class CborLib := {
  cborEncode : JsMap -> u8a;
  toString_base64 : u8a -> string;
  cborDecode_base64 : string -> JsMap
}.

Definition ENCRYPTION_KEY_MAP_KEY : string := "e".
Definition SERVICES_KEY_MAP_KEY : string := "s".

(** [serializeAndEncodeAdditionalLightDidDetails]; [null] is [None]. *)
Definition serializeAndEncodeAdditionalLightDidDetails `{CborLib}
    (encryptionKey : option INewPublicKey)
    (serviceEndpoints : option (list IDidServiceEndpoint)) : option string :=
  let objectToSerialize : JsMap := [] in
  let objectToSerialize :=
    match encryptionKey with
    | Some key => Map_set objectToSerialize ENCRYPTION_KEY_MAP_KEY (KeyValue key)
    | None => objectToSerialize
    end in
  let objectToSerialize :=
    match serviceEndpoints with
    | Some services =>
        if negb (Nat.eqb (length services) 0)
        then Map_set objectToSerialize SERVICES_KEY_MAP_KEY
               (EndpointsValue services)
        else objectToSerialize
    | None => objectToSerialize
    end in
  if Nat.eqb (length objectToSerialize) 0
  then None
  else Some (toString_base64 (cborEncode objectToSerialize)).

(** What [decodeAndDeserializeAdditionalLightDidDetails] returns: the two
    properties of the payload, as they are. *)
Record DecodedDetails := {
  decoded_encryptionKey : option MapValue;
  decoded_serviceEndpoints : option MapValue
}.

(** [decodeAndDeserializeAdditionalLightDidDetails]; [version] is unused. *)
Definition decodeAndDeserializeAdditionalLightDidDetails `{CborLib}
    (rawInput : string) (version : nat) : DecodedDetails :=
  let decodedPayload := cborDecode_base64 rawInput in
  {| decoded_encryptionKey := Object_get decodedPayload ENCRYPTION_KEY_MAP_KEY;
     decoded_serviceEndpoints := Object_get decodedPayload SERVICES_KEY_MAP_KEY |}.

(** The entries [serializeAndEncodeAdditionalLightDidDetails] hands to the
    encoder: the key under ["e"] if there is one, then the services under
    ["s"] if there are any. *)
Definition detailsEntries (encryptionKey : option INewPublicKey)
    (serviceEndpoints : option (list IDidServiceEndpoint)) : JsMap :=
  match encryptionKey with
  | Some key => [("e", KeyValue key)]
  | None => []
  end
  ++ match serviceEndpoints with
     | Some (service :: services) =>
         [("s", EndpointsValue (service :: services))]
     | _ => []
     end.

(** A service is acceptable when its id is no DID URI and none of the two
    reserved names. *)
Definition acceptable `{DidUtilsLib} (service : IDidServiceEndpoint) : Prop :=
  parseDidUrl (service_id service) = None
  /\ service_id service <> "authentication"
  /\ service_id service <> "encryption".

(** Stand-ins for [Did.utils], to run the check: two key types have an
    encoding, and a DID URI is a string that starts with [did:kilt:]. *)
Definition plainDidUtils : DidUtilsLib :=
  {| getEncodingForSigningKeyType := fun keyType =>
       if String.eqb keyType "sr25519" then Some "00"
       else if String.eqb keyType "ed25519" then Some "01"
       else None;
     parseDidUrl := fun uri =>
       if String.prefix "did:kilt:" uri
       then Some {| parsed_did := uri; parsed_version := 1;
                    parsed_type := full;
                    parsed_identifier :=
                      String.substring 9 (String.length uri - 9) uri;
                    parsed_fragment := None;
                    parsed_encodedDetails := None |}
       else None |}.

Definition keyA : INewPublicKey :=
  {| publicKey := [Byte.x01; Byte.x02]; key_type := "ed25519" |}.

Definition keyX : INewPublicKey :=
  {| publicKey := [Byte.x03; Byte.x04]; key_type := "x25519" |}.

Definition serviceOk : IDidServiceEndpoint :=
  {| service_id := "my-service"; service_types := ["CredentialExposureService"];
     service_urls := ["http://my_domain.example.org"] |}.

Definition serviceReserved : IDidServiceEndpoint :=
  {| service_id := "encryption"; service_types := ["type-1"];
     service_urls := ["url-1"] |}.

Definition serviceDid : IDidServiceEndpoint :=
  {| service_id := "did:kilt:4rp4rcDHP71YrBNvDhcH5iRoM3YzVoQVnCZvQPwPom9bjo2e#service-1";
     service_types := ["type-1"]; service_urls := ["url-1"] |}.

(** A stand-in for the CBOR library, to run the two functions: it numbers
    the maps, writes a number as that many zero bytes, and renders a buffer
    as the string of its bytes. *)
#[global] Instance Byte_eq_dec : EqDecision Byte.byte.
Proof. solve_decision. Defined.

#[global] Instance Byte_countable : Countable Byte.byte :=
  inj_countable Byte.to_N Byte.of_N Byte.of_to_N.

#[global] Instance INewPublicKey_eq_dec : EqDecision INewPublicKey.
Proof. solve_decision. Defined.

#[global] Instance INewPublicKey_countable : Countable INewPublicKey :=
  inj_countable'
    (fun k => (publicKey k, key_type k))
    (fun p => {| publicKey := p.1; key_type := p.2 |})
    (fun k => match k with Build_INewPublicKey _ _ => eq_refl end).

#[global] Instance IDidServiceEndpoint_eq_dec : EqDecision IDidServiceEndpoint.
Proof. solve_decision. Defined.

#[global] Instance IDidServiceEndpoint_countable
  : Countable IDidServiceEndpoint :=
  inj_countable'
    (fun e => (service_id e, service_types e, service_urls e))
    (fun p => {| service_id := p.1.1; service_types := p.1.2;
                 service_urls := p.2 |})
    (fun e => match e with Build_IDidServiceEndpoint _ _ _ => eq_refl end).

#[global] Instance MapValue_eq_dec : EqDecision MapValue.
Proof. solve_decision. Defined.

#[global] Instance MapValue_countable : Countable MapValue :=
  inj_countable'
    (fun v => match v with
              | KeyValue k => inl k
              | EndpointsValue l => inr l
              end)
    (fun s => match s with
              | inl k => KeyValue k
              | inr l => EndpointsValue l
              end)
    (fun v => match v with
              | KeyValue _ => eq_refl
              | EndpointsValue _ => eq_refl
              end).

Definition unaryCbor : CborLib :=
  {| cborEncode := fun m => repeat Byte.x00 (Pos.to_nat (encode m));
     toString_base64 := String.string_of_list_byte;
     cborDecode_base64 := fun s =>
       default []
         (decode (Pos.of_nat (length (String.list_byte_of_string s)))) |}.

(** [codec_round_trip]: decoding the rendering of an encoded map gives the
    map back. *)
Definition codec_round_trip `{CborLib} : Prop :=
  forall m : JsMap, cborDecode_base64 (toString_base64 (cborEncode m)) = m.

(** * Properties *)

(** ** Asynchronous computations *)

Lemma bind_resolved {A B} (m : Async A) (k : A -> Async B) L es a es' r :
  m L = (es, Resolved a) ->
  k a L = (es', r) ->
  bind m k L = (es ++ es', r).
Proof.
  intros Hm Hk. unfold bind. rewrite Hm, Hk. reflexivity.
Qed.

Lemma bind_ret {A B} (m : Async A) (f : A -> B) L es a :
  m L = (es, Resolved a) ->
  bind m (fun x => ret (f x)) L = (es, Resolved (f a)).
Proof.
  intros Hm. unfold bind. rewrite Hm. simpl. rewrite app_nil_r. reflexivity.
Qed.

Lemma bind_rejected {A B} (m : Async A) (k : A -> Async B) L es e :
  m L = (es, Rejected e) ->
  bind m k L = (es, Rejected e).
Proof.
  intros Hm. unfold bind. rewrite Hm. reflexivity.
Qed.

Lemma bind_pending {A B} (m : Async A) (k : A -> Async B) L es :
  m L = (es, Pending) ->
  bind m k L = (es, Pending).
Proof.
  intros Hm. unfold bind. rewrite Hm. reflexivity.
Qed.

Lemma bind_resolved_inv {A B} (m : Async A) (k : A -> Async B) L es b :
  bind m k L = (es, Resolved b) ->
  exists es1 a es2,
    m L = (es1, Resolved a) /\ k a L = (es2, Resolved b) /\ es = es1 ++ es2.
Proof.
  unfold bind. destruct (m L) as [es1 [a | e1 | ]]; try discriminate.
  destruct (k a L) as [es2 r] eqn:Hk. intros [= <- ->].
  exists es1, a, es2. auto.
Qed.

Lemma never_unauthorized_bind {A B} (m : Async A) (k : A -> Async B) L :
  never_unauthorized m L ->
  (forall a, never_unauthorized (k a) L) ->
  never_unauthorized (bind m k) L.
Proof.
  unfold never_unauthorized, bind. intros Hm Hk msg.
  specialize (Hm msg). destruct (m L) as [es [a | e | ]]; simpl in *.
  - specialize (Hk a msg). destruct (k a L). exact Hk.
  - intros [= ->]. apply Hm. reflexivity.
  - discriminate.
Qed.

Lemma never_unauthorized_ret {A} (a : A) L : never_unauthorized (ret a) L.
Proof. intros msg. discriminate. Qed.

Lemma never_unauthorized_all {A B} (f : A -> Async B) xs L :
  (forall x, never_unauthorized (f x) L) ->
  never_unauthorized (all f xs) L.
Proof.
  intros Hf. induction xs as [|x xs IH]; [apply never_unauthorized_ret|].
  cbn [all]. apply never_unauthorized_bind; [apply Hf|]. intros b.
  apply never_unauthorized_bind; [apply IH|]. intros bs.
  apply never_unauthorized_ret.
Qed.

Lemma query_run (i : NodeId) (L : Ledger) :
  query i L = ([QueryNode i], Resolved (delegationNodes L !! i)).
Proof. reflexivity. Qed.

(** ** Objects *)

Lemma set_childrenIdentifiers_same (this : DelegationNode) :
  set_childrenIdentifiers this (childrenIds this) = this.
Proof. destruct this. reflexivity. Qed.

Lemma isRoot_spec (this : DelegationNode) :
  isRoot this = true <-> id this = hierarchyId this /\ parentId this = None.
Proof.
  unfold isRoot. rewrite andb_true_iff, String.eqb_eq.
  destruct (parentId this); intuition congruence.
Qed.

(** ** Construction *)

Lemma errorCheck_consistent (n : DelegationNode) :
  errorCheck n = Normal tt <-> (id n = hierarchyId n <-> parentId n = None).
Proof.
  unfold errorCheck.
  destruct (String.eqb_spec (id n) (hierarchyId n)) as [He | Hne];
    destruct (parentId n); split; intros; try discriminate; try reflexivity;
    intuition congruence.
Qed.

(** A structurally consistent argument is accepted, field by field. *)
Lemma new_DelegationNode_accepts (i : IDelegationNode) :
  (i_id i = i_hierarchyId i <-> i_parentId i = None) ->
  new_DelegationNode i =
    Normal {| id := i_id i; hierarchyId := i_hierarchyId i;
              parentId := i_parentId i; childrenIdentifiers := i_childrenIds i;
              account := i_account i; permissions := i_permissions i;
              hierarchyDetails := None; revoked := i_revoked i |}.
Proof.
  intros Hc. unfold new_DelegationNode.
  match goal with |- context [errorCheck ?n] =>
    destruct (errorCheck_consistent n) as [_ Hok] end.
  rewrite Hok by exact Hc. reflexivity.
Qed.

(** A fresh id that differs from the hierarchy id yields a node under the
    given parent, not revoked and without children. *)
Lemma newNode_accepts (uuid : NodeId) (input : NewDelegationNodeInput) :
  uuid <> n_hierarchyId input ->
  newNode uuid input =
    Normal {| id := uuid; hierarchyId := n_hierarchyId input;
              parentId := Some (n_parentId input); childrenIdentifiers := [];
              account := n_account input; permissions := n_permissions input;
              hierarchyDetails := None; revoked := false |}.
Proof.
  intros Hne. unfold newNode. rewrite new_DelegationNode_accepts; [reflexivity|].
  simpl. split; [intros; contradiction | discriminate].
Qed.

Lemma newRoot_run (uuid : NodeId) (input : NewDelegationRootInput) :
  newRoot uuid input =
    Normal {| id := uuid; hierarchyId := uuid; parentId := None;
              childrenIdentifiers := []; account := r_account input;
              permissions := r_permissions input;
              hierarchyDetails :=
                Some {| details_id := uuid; cTypeHash := r_cTypeHash input |};
              revoked := false |}.
Proof.
  unfold newRoot. rewrite new_DelegationNode_accepts; [reflexivity|].
  simpl. split; reflexivity.
Qed.

(** C8: constructing a node whose id differs from its hierarchy id and that
    has no parent id fails with [InvalidNode], and so does constructing a
    node whose id is its hierarchy id and that has a parent id. *)
Theorem construction_rejects_inconsistent (i : IDelegationNode) :
  (i_id i <> i_hierarchyId i -> i_parentId i = None ->
   new_DelegationNode i = Throws InvalidNode)
  /\ (forall p, i_id i = i_hierarchyId i -> i_parentId i = Some p ->
      new_DelegationNode i = Throws InvalidNode).
Proof.
  unfold new_DelegationNode, errorCheck. simpl. split.
  - intros Hne Hp. rewrite Hp.
    destruct (String.eqb_spec (i_id i) (i_hierarchyId i)); [contradiction|].
    reflexivity.
  - intros p He Hp. rewrite Hp.
    destruct (String.eqb_spec (i_id i) (i_hierarchyId i)); [|contradiction].
    reflexivity.
Qed.

Lemma construction_rejects_inconsistent_witness :
  new_DelegationNode
    {| i_id := "0xC1"; i_hierarchyId := "0xR"; i_parentId := None;
       i_childrenIds := []; i_account := "did:kilt:B";
       i_permissions := [ATTEST]; i_revoked := false |} = Throws InvalidNode
  /\ new_DelegationNode
       {| i_id := "0xR"; i_hierarchyId := "0xR"; i_parentId := Some "0xC1";
          i_childrenIds := []; i_account := "did:kilt:A";
          i_permissions := [ATTEST]; i_revoked := false |} = Throws InvalidNode.
Proof.
  split.
  - apply (proj1 (construction_rejects_inconsistent _)); simpl;
      [discriminate | reflexivity].
  - apply (proj2 (construction_rejects_inconsistent _) "0xC1"); reflexivity.
Defined.

(** ** Storing *)

(** C2: [store] on a root (id equal to the hierarchy id, no parent id) emits
    the root-creation extrinsic whatever the signature; on any other node it
    rejects with [ERROR_DELEGATION_SIGNATURE_MISSING] without a signature and
    emits the delegation extrinsic carrying exactly the given signature with
    one.  No query is sent. *)
Theorem store_root_or_signed (this : DelegationNode) (L : Ledger) :
  (id this = hierarchyId this /\ parentId this = None ->
   forall signature, store this signature L = ([], Resolved (storeAsRoot this)))
  /\ (~ (id this = hierarchyId this /\ parentId this = None) ->
      store this None L = ([], Rejected ERROR_DELEGATION_SIGNATURE_MISSING)
      /\ forall s, store this (Some s) L
                   = ([], Resolved (storeAsDelegation this s))).
Proof.
  unfold store. split.
  - intros Hroot signature. apply isRoot_spec in Hroot. rewrite Hroot.
    reflexivity.
  - intros Hnot. destruct (isRoot this) eqn:Hr.
    + apply isRoot_spec in Hr. contradiction.
    + split; reflexivity.
Qed.

Lemma store_root_or_signed_witness :
  (forall signature,
      store nodeR signature chain3 = ([], Resolved (storeAsRoot nodeR)))
  /\ store nodeC1 None chain3 = ([], Rejected ERROR_DELEGATION_SIGNATURE_MISSING)
  /\ forall s, store nodeC1 (Some s) chain3
               = ([], Resolved (storeAsDelegation nodeC1 s)).
Proof.
  split.
  - apply (proj1 (store_root_or_signed nodeR chain3)). split; reflexivity.
  - apply (proj2 (store_root_or_signed nodeC1 chain3)).
    intros [He _]. discriminate He.
Defined.

(** ** The delegation hash *)

(** C5: the delegation hash is the hex encoding of the 256-bit hash of the
    bytes of the id, of the hierarchy id, of the parent id when there is one,
    and of the permission bitset, concatenated in this order; two nodes that
    agree on these four fields have the same hash. *)
Theorem generateHash_layout `{CryptoLib} (this : DelegationNode) :
  generateHash this
  = u8aToHex
      (hash (coToUInt8 (id this) ++ coToUInt8 (hierarchyId this)
             ++ match parentId this with
                | Some p => coToUInt8 p
                | None => []
                end
             ++ permissionsAsBitset this) 256)
  /\ forall other,
       id other = id this ->
       hierarchyId other = hierarchyId this ->
       parentId other = parentId this ->
       permissions other = permissions this ->
       generateHash other = generateHash this.
Proof.
  assert (Hlayout : forall n,
    generateHash n
    = u8aToHex
        (hash (coToUInt8 (id n) ++ coToUInt8 (hierarchyId n)
               ++ match parentId n with
                  | Some p => coToUInt8 p
                  | None => []
                  end
               ++ permissionsAsBitset n) 256)).
  { intros n. unfold generateHash, u8aConcat.
    destruct (parentId n); simpl; rewrite ?app_nil_r; reflexivity. }
  split; [apply Hlayout|].
  intros other Hid Hh Hp Hperm. rewrite !Hlayout.
  unfold permissionsAsBitset. rewrite Hid, Hh, Hp, Hperm. reflexivity.
Qed.

Lemma generateHash_layout_witness :
  @generateHash plainCrypto nodeC2' = @generateHash plainCrypto nodeC2.
Proof.
  apply (proj2 (@generateHash_layout plainCrypto nodeC2) nodeC2');
    reflexivity.
Defined.

(** ** Hierarchy details *)

Lemma getHierarchyDetails_cached (this : DelegationNode) d (L : Ledger) :
  hierarchyDetails this = Some d ->
  getHierarchyDetails this L = ([], Resolved (this, d)).
Proof.
  intros Hd. unfold getHierarchyDetails. rewrite Hd. reflexivity.
Qed.

Lemma getHierarchyDetails_uncached (this : DelegationNode) (L : Ledger) :
  hierarchyDetails this = None ->
  getHierarchyDetails this L
  = ([QueryHierarchy (hierarchyId this)],
     match hierarchies L !! hierarchyId this with
     | Some d => Resolved (set_hierarchyDetails this d, d)
     | None => Rejected (ERROR_HIERARCHY_QUERY (hierarchyId this))
     end).
Proof.
  intros Hd. unfold getHierarchyDetails. rewrite Hd.
  unfold bind, queryDetails.
  destruct (hierarchies L !! hierarchyId this); reflexivity.
Qed.

(** C6: with the details cached on the node, [getHierarchyDetails] resolves
    to them and sends no query; without, it sends one query for the
    hierarchy id, rejects with [ERROR_HIERARCHY_QUERY] when the chain has no
    such hierarchy, and otherwise resolves to the details found and caches
    them, so that the next call sends no query.  A node built by [newRoot]
    has its details cached. *)
Theorem getHierarchyDetails_cached_or_single_query
    (this : DelegationNode) (L : Ledger) :
  match hierarchyDetails this with
  | Some d => getHierarchyDetails this L = ([], Resolved (this, d))
  | None =>
      match hierarchies L !! hierarchyId this with
      | None =>
          getHierarchyDetails this L
          = ([QueryHierarchy (hierarchyId this)],
             Rejected (ERROR_HIERARCHY_QUERY (hierarchyId this)))
      | Some d =>
          getHierarchyDetails this L
          = ([QueryHierarchy (hierarchyId this)],
             Resolved (set_hierarchyDetails this d, d))
          /\ hierarchyDetails (set_hierarchyDetails this d) = Some d
          /\ getHierarchyDetails (set_hierarchyDetails this d) L
             = ([], Resolved (set_hierarchyDetails this d, d))
      end
  end
  /\ forall uuid input root,
       newRoot uuid input = Normal root ->
       hierarchyDetails root
       = Some {| details_id := uuid; cTypeHash := r_cTypeHash input |}
       /\ getHierarchyDetails root L
          = ([], Resolved (root, {| details_id := uuid;
                                    cTypeHash := r_cTypeHash input |})).
Proof.
  split.
  - destruct (hierarchyDetails this) as [d|] eqn:Hd.
    + apply getHierarchyDetails_cached, Hd.
    + rewrite (getHierarchyDetails_uncached _ _ Hd).
      destruct (hierarchies L !! hierarchyId this) as [d|]; [|reflexivity].
      split; [reflexivity|]. split; [reflexivity|].
      apply getHierarchyDetails_cached. reflexivity.
  - intros uuid input root. unfold newRoot.
    destruct (new_DelegationNode _) as [created | e]; [|discriminate].
    intros [= <-]. split; reflexivity.
Qed.

Lemma getHierarchyDetails_cached_or_single_query_witness :
  (getHierarchyDetails nodeR chain3
   = ([QueryHierarchy "0xR"], Resolved (set_hierarchyDetails nodeR detailsR,
                                        detailsR))
   /\ getHierarchyDetails (set_hierarchyDetails nodeR detailsR) chain3
      = ([], Resolved (set_hierarchyDetails nodeR detailsR, detailsR)))
  /\ forall root,
       newRoot "0xR"
         {| r_account := "did:kilt:A"; r_permissions := [ATTEST; DELEGATE];
            r_cTypeHash := "0xCTYPE" |} = Normal root ->
       getHierarchyDetails root chainWithoutC1
       = ([], Resolved (root, detailsR)).
Proof.
  split.
  - pose proof (proj1 (getHierarchyDetails_cached_or_single_query
                         nodeR chain3)) as Hrun.
    simpl in Hrun. destruct Hrun as (Hfirst & _ & Hsecond).
    split; [exact Hfirst | exact Hsecond].
  - intros root Hroot.
    apply (proj2 (getHierarchyDetails_cached_or_single_query
                    nodeR chainWithoutC1) _ _ _ Hroot).
Defined.

(** ** Ancestry *)

Lemma findAncestorOwnedBy_owner fuel (this : DelegationNode) did L :
  account this = did ->
  findAncestorOwnedBy (S fuel) this did L
  = ([], Resolved {| steps := 0; node := Some this |}).
Proof.
  intros Ha. simpl. apply String.eqb_eq in Ha. rewrite Ha. reflexivity.
Qed.

Lemma findAncestorOwnedBy_top fuel (this : DelegationNode) did L :
  account this <> did ->
  parentId this = None \/
  (exists p, parentId this = Some p /\ delegationNodes L !! p = None) ->
  exists es,
    findAncestorOwnedBy (S fuel) this did L
    = (es, Resolved {| steps := 0; node := None |}).
Proof.
  intros Ha Hp. simpl. apply String.eqb_neq in Ha. rewrite Ha.
  unfold bind, getParent. destruct Hp as [Hp | (p & Hp & Hq)]; rewrite Hp.
  - exists []. reflexivity.
  - rewrite query_run, Hq. eexists. reflexivity.
Qed.

Lemma findAncestorOwnedBy_parent fuel (this : DelegationNode) did L p pn es r :
  account this <> did ->
  parentId this = Some p ->
  delegationNodes L !! p = Some pn ->
  findAncestorOwnedBy fuel pn did L = (es, Resolved r) ->
  findAncestorOwnedBy (S fuel) this did L
  = (QueryNode p :: es, Resolved {| steps := S (steps r); node := node r |}).
Proof.
  intros Ha Hp Hq Hrec. simpl. apply String.eqb_neq in Ha. rewrite Ha.
  unfold bind at 1. unfold getParent. rewrite Hp, query_run, Hq.
  unfold bind. rewrite Hrec. simpl. rewrite Nat.add_1_r, app_nil_r.
  reflexivity.
Qed.

Lemma findAncestorOwnedBy_owned L did this k a :
  owned_above L did this k a ->
  forall fuel, k < fuel ->
  exists es,
    findAncestorOwnedBy fuel this did L
    = (es, Resolved {| steps := k; node := Some a |}).
Proof.
  induction 1 as [n Ha | n p pn k a Ha Hp Hq Hup IH]; intros fuel Hf.
  - destruct fuel as [|fuel]; [lia|].
    exists []. apply findAncestorOwnedBy_owner, Ha.
  - destruct fuel as [|fuel]; [lia|].
    destruct (IH fuel) as [es Hrec]; [lia|].
    exists (QueryNode p :: es).
    rewrite (findAncestorOwnedBy_parent _ _ _ _ _ _ _ _ Ha Hp Hq Hrec).
    reflexivity.
Qed.

Lemma findAncestorOwnedBy_unowned L did this k :
  unowned_chain L did this k ->
  forall fuel, k < fuel ->
  exists es,
    findAncestorOwnedBy fuel this did L
    = (es, Resolved {| steps := k; node := None |}).
Proof.
  induction 1 as [n Ha Hp | n p pn k Ha Hp Hq Hup IH]; intros fuel Hf.
  - destruct fuel as [|fuel]; [lia|].
    apply findAncestorOwnedBy_top; assumption.
  - destruct fuel as [|fuel]; [lia|].
    destruct (IH fuel) as [es Hrec]; [lia|].
    exists (QueryNode p :: es).
    rewrite (findAncestorOwnedBy_parent _ _ _ _ _ _ _ _ Ha Hp Hq Hrec).
    reflexivity.
Qed.

Lemma owned_above_account L did this k a :
  owned_above L did this k a -> account a = did.
Proof. induction 1; assumption. Qed.

(** C4: on a node whose account is the queried DID, [findAncestorOwnedBy]
    resolves to [{ steps: 0, node }] with the node itself; and when the first
    ancestor owned by the DID is [k] parent hops above the node, it resolves
    to [steps = k] together with that ancestor. *)
Theorem findAncestorOwnedBy_steps
    (L : Ledger) (did : Did) (this : DelegationNode) (fuel : nat) :
  0 < fuel ->
  (account this = did ->
   findAncestorOwnedBy fuel this did L
   = ([], Resolved {| steps := 0; node := Some this |}))
  /\ (forall k a,
        owned_above L did this k a -> k < fuel ->
        outcome (findAncestorOwnedBy fuel this did L)
        = Resolved {| steps := k; node := Some a |}
        /\ account a = did).
Proof.
  intros Hf. split.
  - intros Ha. destruct fuel as [|fuel]; [lia|].
    apply findAncestorOwnedBy_owner, Ha.
  - intros k a Hup Hk. split.
    + destruct (findAncestorOwnedBy_owned _ _ _ _ _ Hup fuel Hk) as [es ->].
      reflexivity.
    + eapply owned_above_account, Hup.
Qed.

Lemma chain3_R_above_C2 :
  owned_above chain3 "did:kilt:A" nodeC2 2 nodeR.
Proof.
  eapply owned_higher with (p := "0xC1") (pn := nodeC1);
    [discriminate | reflexivity | reflexivity |].
  eapply owned_higher with (p := "0xR") (pn := nodeR);
    [discriminate | reflexivity | reflexivity |].
  apply owned_here. reflexivity.
Qed.

Lemma findAncestorOwnedBy_steps_witness :
  findAncestorOwnedBy 3 nodeC2 "did:kilt:D" chain3
  = ([], Resolved {| steps := 0; node := Some nodeC2 |})
  /\ outcome (findAncestorOwnedBy 3 nodeC2 "did:kilt:A" chain3)
     = Resolved {| steps := 2; node := Some nodeR |}.
Proof.
  split.
  - apply (findAncestorOwnedBy_steps chain3 "did:kilt:D" nodeC2 3); [lia|].
    reflexivity.
  - apply (findAncestorOwnedBy_steps chain3 "did:kilt:A" nodeC2 3);
      [lia | apply chain3_R_above_C2 | lia].
Defined.

(** C10: when no node from the starting node up to the topmost ancestor the
    chain reaches is owned by the DID, [findAncestorOwnedBy] resolves to no
    node, and its [steps] is the number of parent hops from the starting
    node to that topmost ancestor. *)
Theorem findAncestorOwnedBy_unowned_steps
    (L : Ledger) (did : Did) (this : DelegationNode) (k fuel : nat) :
  unowned_chain L did this k ->
  k < fuel ->
  outcome (findAncestorOwnedBy fuel this did L)
  = Resolved {| steps := k; node := None |}.
Proof.
  intros Hup Hk.
  destruct (findAncestorOwnedBy_unowned _ _ _ _ Hup fuel Hk) as [es ->].
  reflexivity.
Qed.

Lemma chain3_nobody_above_C2 :
  unowned_chain chain3 "did:kilt:Z" nodeC2 2.
Proof.
  eapply unowned_step with (p := "0xC1") (pn := nodeC1);
    [discriminate | reflexivity | reflexivity |].
  eapply unowned_step with (p := "0xR") (pn := nodeR);
    [discriminate | reflexivity | reflexivity |].
  apply unowned_top; [discriminate | left; reflexivity].
Qed.

Lemma findAncestorOwnedBy_unowned_steps_witness :
  outcome (findAncestorOwnedBy 3 nodeC2 "did:kilt:Z" chain3)
  = Resolved {| steps := 2; node := None |}.
Proof.
  apply (findAncestorOwnedBy_unowned_steps chain3 "did:kilt:Z" nodeC2 2 3);
    [apply chain3_nobody_above_C2 | lia].
Defined.

(** ** Children *)

Lemma chain_getChildren_resolves (L : Ledger) (n : DelegationNode) children :
  map Some children
  = map (fun i => delegationNodes L !! i) (childrenIds n) ->
  chain_getChildren n L = (map QueryNode (childrenIds n), Resolved children).
Proof.
  unfold chain_getChildren. generalize (childrenIds n) as ids.
  intros ids. revert children.
  induction ids as [|i ids IH]; intros [|c children] Hmap;
    try discriminate Hmap.
  - reflexivity.
  - simpl in Hmap. injection Hmap as Hi Hrest. cbn [all map].
    apply (bind_resolved _ _ L [QueryNode i] c (map QueryNode ids)).
    + unfold bind. rewrite query_run, <- Hi. reflexivity.
    + apply (bind_ret _ (fun bs => c :: bs)), IH, Hrest.
Qed.

Lemma childrenIds_refreshed (L : Ledger) (this : DelegationNode) :
  match delegationNodes L !! id this with
  | Some refreshed => set_childrenIdentifiers this (childrenIds refreshed)
  | None => this
  end = set_childrenIdentifiers this (refreshedChildrenIds L this).
Proof.
  unfold refreshedChildrenIds.
  destruct (delegationNodes L !! id this); [reflexivity|].
  symmetry. apply set_childrenIdentifiers_same.
Qed.

(** [getChildren] sends the query for the node itself first, and goes on
    with the object whose child ids are the refreshed ones. *)
Lemma getChildren_run (this : DelegationNode) (L : Ledger) :
  getChildren this L
  = (QueryNode (id this)
       :: events (chain_getChildren
                    (set_childrenIdentifiers this (refreshedChildrenIds L this)) L),
     Outcome_map
       (fun children =>
          (set_childrenIdentifiers this (refreshedChildrenIds L this), children))
       (outcome (chain_getChildren
                   (set_childrenIdentifiers this (refreshedChildrenIds L this)) L))).
Proof.
  unfold getChildren. unfold bind at 1. rewrite query_run.
  rewrite childrenIds_refreshed.
  unfold bind.
  destruct (chain_getChildren _ L) as [es [cs | e | ]]; simpl;
    rewrite ?app_nil_r; reflexivity.
Qed.

Lemma getChildren_resolves (this : DelegationNode) (L : Ledger) children :
  map Some children
  = map (fun i => delegationNodes L !! i) (refreshedChildrenIds L this) ->
  getChildren this L
  = (QueryNode (id this) :: map QueryNode (refreshedChildrenIds L this),
     Resolved (set_childrenIdentifiers this (refreshedChildrenIds L this),
               children)).
Proof.
  intros Hmap. rewrite getChildren_run.
  rewrite (chain_getChildren_resolves L _ children) by exact Hmap.
  reflexivity.
Qed.

Lemma getChildren_object (this : DelegationNode) (L : Ledger) es this' children :
  getChildren this L = (es, Resolved (this', children)) ->
  this' = set_childrenIdentifiers this (refreshedChildrenIds L this).
Proof.
  rewrite getChildren_run.
  destruct (outcome _) as [cs | e | ]; simpl; intros [= _ <- _] || discriminate.
  reflexivity.
Qed.

(** C7, as amended: [getChildren] first queries the node's own record, then
    resolves child ids in their order.  When the chain holds a record for the
    node, the ids resolved, and cached on the object from then on, are those
    of that record; when the chain holds none, the cached ids are kept and
    are the ones resolved. *)
Theorem getChildren_refreshes_when_recorded
    (this : DelegationNode) (L : Ledger) (children : list DelegationNode) :
  map Some children
  = map (fun i => delegationNodes L !! i) (refreshedChildrenIds L this) ->
  getChildren this L
  = (QueryNode (id this) :: map QueryNode (refreshedChildrenIds L this),
     Resolved (set_childrenIdentifiers this (refreshedChildrenIds L this),
               children))
  /\ (forall refreshed,
        delegationNodes L !! id this = Some refreshed ->
        refreshedChildrenIds L this = childrenIds refreshed)
  /\ (delegationNodes L !! id this = None ->
      refreshedChildrenIds L this = childrenIds this).
Proof.
  intros Hmap. split; [apply getChildren_resolves, Hmap|].
  unfold refreshedChildrenIds.
  split; [intros refreshed Hq | intros Hq]; rewrite Hq; reflexivity.
Qed.

Lemma getChildren_refreshes_when_recorded_witness :
  getChildren nodeR chain3
  = ([QueryNode "0xR"; QueryNode "0xC1"], Resolved (nodeR, [nodeC1])).
Proof.
  apply (getChildren_refreshes_when_recorded nodeR chain3 [nodeC1]).
  reflexivity.
Defined.

(** The node that was not stored is one the constructor accepts. *)
Example draftNode_constructed :
  new_DelegationNode
    {| i_id := "0xNEW"; i_hierarchyId := "0xR"; i_parentId := Some "0xR";
       i_childrenIds := ["0xC2"]; i_account := "did:kilt:E";
       i_permissions := [ATTEST]; i_revoked := false |} = Normal draftNode.
Proof. reflexivity. Qed.

(** C7, as stated, fails: the chain holds no record for a node that was not
    stored, and [getChildren] resolves the children cached on the object. *)
Lemma getChildren_keeps_cache_counterexample :
  getChildren draftNode chain3
  = ([QueryNode "0xNEW"; QueryNode "0xC2"], Resolved (draftNode, [nodeC2]))
  /\ delegationNodes chain3 !! id draftNode = None
  /\ ~ getChildren_follows_chain_record.
Proof.
  assert (Hrun : getChildren draftNode chain3
                 = ([QueryNode "0xNEW"; QueryNode "0xC2"],
                    Resolved (draftNode, [nodeC2]))) by reflexivity.
  assert (Hnone : delegationNodes chain3 !! id draftNode = None)
    by reflexivity.
  split; [exact Hrun|]. split; [exact Hnone|].
  intros Hclaim. destruct (Hclaim _ _ _ _ _ Hrun) as (r & Hr & _).
  rewrite Hnone in Hr. discriminate Hr.
Qed.

(** ** Counting the subtree *)

Lemma Tree_ind_nested (P : Tree -> Prop) :
  (forall n cs, Forall P cs -> P (TNode n cs)) ->
  forall tr, P tr.
Proof.
  intros Hnode. fix IH 1. intros [n cs]. apply Hnode.
  induction cs as [|c cs IHcs]; constructor; [apply IH | apply IHcs].
Qed.

Lemma unfolds_node (L : Ledger) n cs :
  unfolds L (TNode n cs) <->
  map (fun c => Some (root c)) cs
  = map (fun i => delegationNodes L !! i) (refreshedChildrenIds L n)
  /\ Forall (unfolds L) cs.
Proof.
  simpl. apply and_iff_compat_l.
  induction cs as [|c cs IH]; [split; constructor|].
  rewrite Forall_cons, IH. reflexivity.
Qed.

Lemma height_subtrees n cs :
  Forall (fun c => S (height c) <= height (TNode n cs)) cs.
Proof.
  simpl. induction cs as [|c cs IH]; constructor; simpl.
  - lia.
  - eapply Forall_impl; [exact IH|]. simpl. intros; lia.
Qed.

Lemma length_flatten (tr : Tree) :
  length (flatten tr) = S (length (descendants tr)).
Proof. destruct tr. reflexivity. Qed.

Lemma length_descendants n cs :
  length (descendants (TNode n cs))
  = length cs + sum_list (map (fun c => length (descendants c)) cs).
Proof.
  unfold descendants at 1. simpl.
  induction cs as [|c cs IH]; [reflexivity|].
  simpl. rewrite length_app, IH, length_flatten. lia.
Qed.

Lemma reduce_add_sum k ks :
  reduce_add (k :: ks) = Normal (sum_list (k :: ks)).
Proof.
  simpl. f_equal. revert k.
  induction ks as [|x ks IH]; intros k; simpl; [lia|].
  rewrite IH. lia.
Qed.

Lemma all_counted fuel (L : Ledger) children ks :
  Forall2 (counted fuel L) children ks ->
  exists es,
    all (fun child =>
           '(_, count) <- subtreeNodeCount fuel child ;
           ret count)
        children L
    = (es, Resolved ks).
Proof.
  induction 1 as [|c k children ks (es1 & c' & Hc) _ (es2 & IH)].
  - exists []. reflexivity.
  - exists (es1 ++ es2). cbn [all].
    apply (bind_resolved _ _ L es1 k es2).
    + unfold bind. rewrite Hc. simpl. rewrite app_nil_r. reflexivity.
    + apply (bind_ret _ (fun bs => k :: bs)), IH.
Qed.

Lemma subtreeNodeCount_leaf fuel (this : DelegationNode) (L : Ledger) :
  refreshedChildrenIds L this = [] ->
  subtreeNodeCount (S fuel) this L
  = ([QueryNode (id this)], Resolved (set_childrenIdentifiers this [], 0)).
Proof.
  intros Hids. cbn [subtreeNodeCount]. unfold bind.
  rewrite (getChildren_resolves this L []) by (rewrite Hids; reflexivity).
  rewrite Hids. reflexivity.
Qed.

Lemma subtreeNodeCount_inner fuel (this : DelegationNode) (L : Ledger)
    c children k ks :
  map Some (c :: children)
  = map (fun i => delegationNodes L !! i) (refreshedChildrenIds L this) ->
  Forall2 (counted fuel L) (c :: children) (k :: ks) ->
  counted (S fuel) L this (length (c :: children) + sum_list (k :: ks)).
Proof.
  intros Hmap Hcounts.
  destruct (all_counted _ _ _ _ Hcounts) as [es Hall].
  unfold counted. eexists _, _. cbn [subtreeNodeCount].
  eapply bind_resolved; [apply getChildren_resolves, Hmap|].
  cbn [length Nat.eqb].
  eapply bind_resolved; [exact Hall|].
  rewrite reduce_add_sum. reflexivity.
Qed.

Lemma subtreeNodeCount_tree (L : Ledger) :
  forall tr, unfolds L tr ->
  forall fuel, height tr <= fuel ->
  counted fuel L (root tr) (length (descendants tr)).
Proof.
  induction tr as [n cs IH] using Tree_ind_nested.
  intros Hun fuel Hfuel. apply unfolds_node in Hun as [Hmap Hsub].
  destruct fuel as [|fuel]; [simpl in Hfuel; lia|].
  assert (Hcounts : Forall2 (counted fuel L) (map root cs)
                      (map (fun c => length (descendants c)) cs)).
  { assert (Hh : Forall (fun c => height c <= fuel) cs).
    { eapply Forall_impl; [apply (height_subtrees n cs)|].
      simpl. intros c Hc. simpl in Hfuel. lia. }
    clear Hmap Hfuel. revert IH Hsub Hh.
    induction cs as [|c cs IHcs]; intros IH Hsub Hh; [constructor|].
    apply Forall_cons in IH as [IHc IH].
    apply Forall_cons in Hsub as [Hc Hsub].
    apply Forall_cons in Hh as [Hhc Hh].
    simpl. constructor; [apply IHc | apply IHcs]; assumption. }
  rewrite length_descendants. simpl root.
  rewrite <- map_map in Hmap.
  destruct cs as [|c cs].
  - simpl in Hmap. symmetry in Hmap. apply map_eq_nil in Hmap.
    exists [QueryNode (id n)], (set_childrenIdentifiers n []).
    apply subtreeNodeCount_leaf, Hmap.
  - replace (length (c :: cs)) with (length (map root (c :: cs)))
      by apply length_map.
    apply subtreeNodeCount_inner; assumption.
Qed.

(** The object [subtreeNodeCount] hands back is [this] with its child ids
    refreshed. *)
Lemma subtreeNodeCount_object fuel (this : DelegationNode) L es this' count :
  subtreeNodeCount fuel this L = (es, Resolved (this', count)) ->
  this' = set_childrenIdentifiers this (refreshedChildrenIds L this).
Proof.
  intros Hrun. destruct fuel as [|fuel]; [discriminate|].
  cbn [subtreeNodeCount] in Hrun.
  apply bind_resolved_inv in Hrun as (es1 & [t children] & es2 & Hg & Hk & _).
  apply getChildren_object in Hg. subst t.
  destruct (Nat.eqb (length children) 0).
  - injection Hk as _ Ht _. symmetry. exact Ht.
  - apply bind_resolved_inv in Hk as (? & ks & ? & _ & Hk & _).
    apply bind_resolved_inv in Hk as (? & total & ? & _ & Hk & _).
    injection Hk as _ Ht _. symmetry. exact Ht.
Qed.

Lemma subtreeNodeCount_id fuel (this : DelegationNode) L es this' count :
  subtreeNodeCount fuel this L = (es, Resolved (this', count)) ->
  id this' = id this.
Proof.
  intros Hrun. apply subtreeNodeCount_object in Hrun. subst this'.
  reflexivity.
Qed.

Lemma never_unauthorized_chain_getChildren (n : DelegationNode) L :
  never_unauthorized (chain_getChildren n) L.
Proof.
  apply never_unauthorized_all. intros childId msg.
  unfold bind. rewrite query_run.
  destruct (delegationNodes L !! childId); discriminate.
Qed.

Lemma never_unauthorized_getChildren (this : DelegationNode) L :
  never_unauthorized (getChildren this) L.
Proof.
  intros msg. rewrite getChildren_run. simpl.
  pose proof (never_unauthorized_chain_getChildren
                (set_childrenIdentifiers this (refreshedChildrenIds L this))
                L msg) as Hc.
  destruct (outcome _); simpl; congruence.
Qed.

Lemma never_unauthorized_subtreeNodeCount fuel (this : DelegationNode) L :
  never_unauthorized (subtreeNodeCount fuel this) L.
Proof.
  revert this. induction fuel as [|fuel IH]; intros this.
  - intros msg. discriminate.
  - cbn [subtreeNodeCount].
    apply never_unauthorized_bind; [apply never_unauthorized_getChildren|].
    intros [this' children].
    destruct (Nat.eqb (length children) 0); [apply never_unauthorized_ret|].
    apply never_unauthorized_bind.
    + apply never_unauthorized_all. intros child.
      apply never_unauthorized_bind; [apply IH|].
      intros [? count]. apply never_unauthorized_ret.
    + intros ks. apply never_unauthorized_bind.
      * intros msg. destruct ks; discriminate.
      * intros total. apply never_unauthorized_ret.
Qed.

(** C3: when the refreshed children list of a node is empty,
    [subtreeNodeCount] resolves to 0; otherwise it resolves to the number of
    children plus the sum of what [subtreeNodeCount] resolves to on each
    child.  This is the number of descendants of the node, the node itself
    excluded. *)
Theorem subtreeNodeCount_counts_descendants
    (L : Ledger) (n : DelegationNode) (cs : list Tree) (fuel : nat) :
  unfolds L (TNode n cs) ->
  height (TNode n cs) <= fuel ->
  outcome (getChildren n L)
  = Resolved (set_childrenIdentifiers n (refreshedChildrenIds L n), map root cs)
  /\ exists ks,
       Forall2 (counted (pred fuel) L) (map root cs) ks
       /\ counted fuel L n
            match cs with
            | [] => 0
            | _ => length (map root cs) + sum_list ks
            end
       /\ match cs with
          | [] => 0
          | _ => length (map root cs) + sum_list ks
          end = length (descendants (TNode n cs)).
Proof.
  intros Hun Hfuel.
  pose proof (subtreeNodeCount_tree L _ Hun fuel Hfuel) as Hcount.
  apply unfolds_node in Hun as [Hmap Hsub]. split.
  - rewrite <- map_map in Hmap.
    rewrite (getChildren_resolves _ _ _ Hmap). reflexivity.
  - exists (map (fun c => length (descendants c)) cs).
    assert (Heq : match cs with
                  | [] => 0
                  | _ => length (map root cs)
                         + sum_list (map (fun c => length (descendants c)) cs)
                  end = length (descendants (TNode n cs))).
    { rewrite length_descendants, length_map. destruct cs; reflexivity. }
    split; [|split; [rewrite Heq; exact Hcount | exact Heq]].
    assert (Hh : Forall (fun c => height c <= pred fuel) cs).
    { eapply Forall_impl; [apply (height_subtrees n cs)|].
      cbv beta. intros c Hc. lia. }
    clear Hmap Hcount Heq Hfuel. revert Hsub Hh.
    induction cs as [|c cs IH]; intros Hsub Hh; [constructor|].
    apply Forall_cons in Hsub as [Hc Hsub].
    apply Forall_cons in Hh as [Hhc Hh].
    simpl. constructor; [|apply IH; assumption].
    apply subtreeNodeCount_tree; assumption.
Qed.

Lemma chain3_unfolds : unfolds chain3 tree3.
Proof. vm_compute. repeat split. Qed.

Lemma subtreeNodeCount_counts_descendants_witness :
  counted 3 chain3 nodeR (length (descendants tree3)).
Proof.
  destruct (subtreeNodeCount_counts_descendants
              chain3 nodeR [TNode nodeC1 [TNode nodeC2 []]] 3)
    as (_ & ks & _ & Hcount & Heq);
    [apply chain3_unfolds | simpl; lia |].
  rewrite Heq in Hcount. exact Hcount.
Defined.

(** On the small hierarchy the root has two descendants. *)
Example subtreeNodeCount_R :
  outcome (subtreeNodeCount 3 nodeR chain3) = Resolved (nodeR, 2).
Proof. reflexivity. Qed.

(** ** Bounded cascade requests *)

(** C1: [revoke] first runs [findAncestorOwnedBy]; when that finds no node, it
    rejects with [ERROR_UNAUTHORIZED], having sent the ancestry queries only
    and emitted no extrinsic; when it finds one, [revoke] goes on with
    [subtreeNodeCount] and resolves to the revoke extrinsic for the id of the
    node, with the steps found as [maxDepth] and the count as
    [maxRevocations]. *)
Theorem revoke_authority_then_bounds
    (fuel : nat) (this : DelegationNode) (did : Did) (L : Ledger) :
  (forall es k,
      findAncestorOwnedBy fuel this did L
      = (es, Resolved {| steps := k; node := None |}) ->
      revoke fuel this did L
      = (es, Rejected (ERROR_UNAUTHORIZED (unauthorizedMessage did))))
  /\ (forall es k a es' this' childCount,
        findAncestorOwnedBy fuel this did L
        = (es, Resolved {| steps := k; node := Some a |}) ->
        subtreeNodeCount fuel this L = (es', Resolved (this', childCount)) ->
        revoke fuel this did L
        = (es ++ es', Resolved (this', revokeTx (id this) k childCount))).
Proof.
  split.
  - intros es k Hfind. unfold revoke, bind. rewrite Hfind. simpl.
    rewrite app_nil_r. reflexivity.
  - intros es k a es' this' childCount Hfind Hcount.
    unfold revoke. eapply bind_resolved; [exact Hfind|]. simpl.
    rewrite <- (subtreeNodeCount_id _ _ _ _ _ _ Hcount).
    unfold bind. rewrite Hcount. simpl. rewrite app_nil_r. reflexivity.
Qed.

Lemma revoke_authority_then_bounds_witness :
  revoke 3 nodeC2 "did:kilt:Z" chain3
  = ([QueryNode "0xC1"; QueryNode "0xR"],
     Rejected (ERROR_UNAUTHORIZED (unauthorizedMessage "did:kilt:Z")))
  /\ revoke 3 nodeC2 "did:kilt:B" chain3
     = ([QueryNode "0xC1"] ++ [QueryNode "0xC2"],
        Resolved (nodeC2, revokeTx "0xC2" 1 0)).
Proof.
  split.
  - apply (proj1 (revoke_authority_then_bounds 3 nodeC2 "did:kilt:Z" chain3)
             [QueryNode "0xC1"; QueryNode "0xR"] 2).
    reflexivity.
  - apply (proj2 (revoke_authority_then_bounds 3 nodeC2 "did:kilt:B" chain3)
             [QueryNode "0xC1"] 1 nodeC1 [QueryNode "0xC2"] nodeC2 0);
      reflexivity.
Defined.

(** [revoke] rejects with [ERROR_UNAUTHORIZED] when the DID owns neither the
    node nor any of its ancestors. *)
Lemma revoke_unauthorized_without_owner fuel (this : DelegationNode) did L k :
  unowned_chain L did this k ->
  k < fuel ->
  outcome (revoke fuel this did L)
  = Rejected (ERROR_UNAUTHORIZED (unauthorizedMessage did)).
Proof.
  intros Hup Hk.
  destruct (findAncestorOwnedBy_unowned _ _ _ _ Hup fuel Hk) as [es Hfind].
  unfold revoke, bind. rewrite Hfind. reflexivity.
Qed.

(** C9: [remove] and [reclaimDeposit] send the queries of [subtreeNodeCount]
    and no other, never reject with [ERROR_UNAUTHORIZED], and resolve to the
    extrinsic for the id of the node with the count as [maxRemovals]; the
    count is computed the same way for both. *)
Theorem remove_reclaim_bounds
    (fuel : nat) (this : DelegationNode) (L : Ledger) :
  (forall es this' childCount,
      subtreeNodeCount fuel this L = (es, Resolved (this', childCount)) ->
      remove fuel this L
      = (es, Resolved (this', removeTx (id this) childCount))
      /\ reclaimDeposit fuel this L
         = (es, Resolved (this', reclaimDepositTx (id this) childCount)))
  /\ events (remove fuel this L) = events (subtreeNodeCount fuel this L)
  /\ events (reclaimDeposit fuel this L)
     = events (subtreeNodeCount fuel this L)
  /\ never_unauthorized (remove fuel this) L
  /\ never_unauthorized (reclaimDeposit fuel this) L.
Proof.
  split; [|split; [|split; [|split]]].
  - intros es this' childCount Hcount.
    unfold remove, reclaimDeposit, bind. rewrite Hcount. simpl.
    rewrite (subtreeNodeCount_id _ _ _ _ _ _ Hcount), app_nil_r.
    split; reflexivity.
  - unfold remove, bind.
    destruct (subtreeNodeCount fuel this L) as [es [[t c] | e | ]]; simpl;
      rewrite ?app_nil_r; reflexivity.
  - unfold reclaimDeposit, bind.
    destruct (subtreeNodeCount fuel this L) as [es [[t c] | e | ]]; simpl;
      rewrite ?app_nil_r; reflexivity.
  - apply never_unauthorized_bind;
      [apply never_unauthorized_subtreeNodeCount|].
    intros [t c]. apply never_unauthorized_ret.
  - apply never_unauthorized_bind;
      [apply never_unauthorized_subtreeNodeCount|].
    intros [t c]. apply never_unauthorized_ret.
Qed.

Lemma remove_reclaim_bounds_witness :
  remove 3 nodeC1 chain3
  = ([QueryNode "0xC1"; QueryNode "0xC2"; QueryNode "0xC2"],
     Resolved (nodeC1, removeTx "0xC1" 1))
  /\ reclaimDeposit 3 nodeC1 chain3
     = ([QueryNode "0xC1"; QueryNode "0xC2"; QueryNode "0xC2"],
        Resolved (nodeC1, reclaimDepositTx "0xC1" 1)).
Proof.
  apply (proj1 (remove_reclaim_bounds 3 nodeC1 chain3)). reflexivity.
Defined.

(** On the small hierarchy: [B] owns [C1], one hop above [C2], which has no
    children. *)
Example revoke_C2_as_B :
  outcome (revoke 3 nodeC2 "did:kilt:B" chain3)
  = Resolved (nodeC2, revokeTx "0xC2" 1 0).
Proof. reflexivity. Qed.

(** ** The recursion budget

    Once a recursive method has settled within a budget, a larger budget
    changes neither its trace nor its outcome. *)

Lemma bind_stable {A B} (m m' : Async A) (k k' : A -> Async B) L es r :
  (forall es1 r1, m L = (es1, r1) -> r1 <> Pending -> m' L = (es1, r1)) ->
  (forall a es2 r2, k a L = (es2, r2) -> r2 <> Pending -> k' a L = (es2, r2)) ->
  bind m k L = (es, r) ->
  r <> Pending ->
  bind m' k' L = (es, r).
Proof.
  intros Hm Hk. unfold bind.
  destruct (m L) as [es1 [a | e | ]] eqn:Hrun.
  - rewrite (Hm _ _ eq_refl) by discriminate.
    destruct (k a L) as [es2 r2] eqn:Hcont. intros [= <- <-] Hr.
    rewrite (Hk _ _ _ Hcont Hr). reflexivity.
  - rewrite (Hm _ _ eq_refl) by discriminate. intros [= <- <-] _.
    reflexivity.
  - intros [= <- <-] Hr. contradiction.
Qed.

Lemma all_stable {A B} (f g : A -> Async B) xs L :
  (forall x es r, f x L = (es, r) -> r <> Pending -> g x L = (es, r)) ->
  forall es r,
    all f xs L = (es, r) -> r <> Pending -> all g xs L = (es, r).
Proof.
  intros Hfg. induction xs as [|x xs IH]; intros es r; [auto|].
  cbn [all]. apply bind_stable; [apply Hfg|].
  intros b es2 r2. apply bind_stable; [exact IH | auto].
Qed.

Lemma findAncestorOwnedBy_stable fuel fuel' (this : DelegationNode) did L es r :
  fuel <= fuel' ->
  findAncestorOwnedBy fuel this did L = (es, r) ->
  r <> Pending ->
  findAncestorOwnedBy fuel' this did L = (es, r).
Proof.
  revert fuel' this es r.
  induction fuel as [|fuel IH]; intros fuel' this es r Hle.
  - intros [= <- <-] Hr. contradiction.
  - destruct fuel' as [|fuel']; [lia|]. cbn [findAncestorOwnedBy].
    destruct (String.eqb (account this) did); [auto|].
    apply bind_stable; [auto|].
    intros [p|] es2 r2; [|auto].
    apply bind_stable; [|auto].
    intros es1 r1. apply IH. lia.
Qed.

Lemma subtreeNodeCount_stable fuel fuel' (this : DelegationNode) L es r :
  fuel <= fuel' ->
  subtreeNodeCount fuel this L = (es, r) ->
  r <> Pending ->
  subtreeNodeCount fuel' this L = (es, r).
Proof.
  revert fuel' this es r.
  induction fuel as [|fuel IH]; intros fuel' this es r Hle.
  - intros [= <- <-] Hr. contradiction.
  - destruct fuel' as [|fuel']; [lia|]. cbn [subtreeNodeCount].
    apply bind_stable; [auto|].
    intros [this' children] es2 r2.
    destruct (Nat.eqb (length children) 0); [auto|].
    apply bind_stable; [|auto].
    apply all_stable. intros child es3 r3.
    apply bind_stable; [|auto].
    intros es1 r1. apply IH. lia.
Qed.

Lemma revoke_stable fuel fuel' (this : DelegationNode) did L es r :
  fuel <= fuel' ->
  revoke fuel this did L = (es, r) ->
  r <> Pending ->
  revoke fuel' this did L = (es, r).
Proof.
  intros Hle. unfold revoke. apply bind_stable.
  - intros es1 r1. apply findAncestorOwnedBy_stable, Hle.
  - intros found es2 r2. destruct (node found); [|auto].
    apply bind_stable; [|auto].
    intros es1 r1. apply subtreeNodeCount_stable, Hle.
Qed.

(** * Further properties of the class *)

(** ** What the ancestry walk resolves to *)

Lemma findAncestorOwnedBy_resolved fuel (this : DelegationNode) did L es r :
  findAncestorOwnedBy fuel this did L = (es, Resolved r) ->
  match node r with
  | Some a => owned_above L did this (steps r) a /\ length es = steps r
  | None => unowned_chain L did this (steps r)
            /\ steps r <= length es <= S (steps r)
  end.
Proof.
  revert this es r. induction fuel as [|fuel IH]; intros this es r.
  - discriminate.
  - cbn [findAncestorOwnedBy].
    destruct (String.eqb_spec (account this) did) as [Ha | Ha].
    + intros [= <- <-]. simpl. split; [apply owned_here, Ha | reflexivity].
    + intros Hrun.
      apply bind_resolved_inv in Hrun as (es1 & parent & es2 & Hp & Hk & ->).
      unfold getParent in Hp.
      destruct (parentId this) as [p|] eqn:Hpid.
      * rewrite query_run in Hp. injection Hp as <- <-.
        destruct (delegationNodes L !! p) as [pn|] eqn:Hq.
        -- apply bind_resolved_inv in Hk as (es3 & r' & es4 & Hrec & Hk & ->).
           injection Hk as <- <-. apply IH in Hrec. simpl.
           rewrite Nat.add_1_r, app_nil_r.
           destruct (node r') as [a|]; destruct Hrec as [Hch Hlen].
           ++ split; [eapply owned_higher; eassumption | simpl; lia].
           ++ split; [eapply unowned_step; eassumption | simpl; lia].
        -- injection Hk as <- <-. simpl. split; [|lia].
           apply unowned_top; [exact Ha|]. right. exists p. auto.
      * injection Hp as <- <-. injection Hk as <- <-. simpl. split; [|lia].
        apply unowned_top; [exact Ha | left; exact Hpid].
Qed.

(** X1: whatever [findAncestorOwnedBy] resolves to is right.  A node it
    returns is owned by the DID and is the first such node on the way up,
    [steps] parent hops above the starting node; when it returns no node, no
    node up to the topmost ancestor the chain reaches is owned by the DID. *)
Theorem findAncestorOwnedBy_sound
    (fuel : nat) (this : DelegationNode) (did : Did) (L : Ledger)
    (es : list Event) (r : Ancestor) :
  findAncestorOwnedBy fuel this did L = (es, Resolved r) ->
  match node r with
  | Some a => owned_above L did this (steps r) a /\ account a = did
  | None => unowned_chain L did this (steps r)
  end.
Proof.
  intros Hrun. apply findAncestorOwnedBy_resolved in Hrun.
  destruct (node r) as [a|]; destruct Hrun as [Hch _]; [|exact Hch].
  split; [exact Hch | eapply owned_above_account, Hch].
Qed.

Lemma findAncestorOwnedBy_sound_witness :
  owned_above chain3 "did:kilt:B" nodeC2 1 nodeC1
  /\ account nodeC1 = "did:kilt:B".
Proof.
  apply (findAncestorOwnedBy_sound 3 nodeC2 "did:kilt:B" chain3
           [QueryNode "0xC1"] {| steps := 1; node := Some nodeC1 |}).
  reflexivity.
Defined.




(** X3: the walk has no guard against cycles.  When the parent links lead
    from the node through nodes that the chain holds, none of them owned by
    the DID, and never reach a node without parent, the walk is still
    pending after any number of calls, and so is [revoke]. *)
Theorem findAncestorOwnedBy_pending_on_cycle
    (L : Ledger) (did : Did) (P : DelegationNode -> Prop) :
  (forall n, P n ->
     account n <> did
     /\ exists p pn,
          parentId n = Some p /\ delegationNodes L !! p = Some pn /\ P pn) ->
  forall fuel this,
    P this ->
    outcome (findAncestorOwnedBy fuel this did L) = Pending
    /\ outcome (revoke fuel this did L) = Pending.
Proof.
  intros Hclosed.
  assert (Hwalk : forall fuel this, P this ->
            outcome (findAncestorOwnedBy fuel this did L) = Pending).
  { induction fuel as [|fuel IH]; intros this Hthis; [reflexivity|].
    destruct (Hclosed _ Hthis) as (Ha & p & pn & Hp & Hq & Hpn).
    cbn [findAncestorOwnedBy]. apply String.eqb_neq in Ha. rewrite Ha.
    unfold bind at 1. unfold getParent. rewrite Hp, query_run, Hq.
    specialize (IH pn Hpn). unfold bind.
    destruct (findAncestorOwnedBy fuel pn did L) as [es1 [r | e1 | ]];
      simpl in *; congruence. }
  intros fuel this Hthis. split; [apply Hwalk, Hthis|].
  specialize (Hwalk fuel this Hthis). unfold revoke, bind.
  destruct (findAncestorOwnedBy fuel this did L) as [es1 [r | e1 | ]];
    simpl in *; congruence.
Qed.

Lemma findAncestorOwnedBy_pending_on_cycle_witness :
  outcome (findAncestorOwnedBy 1000 loopA "did:kilt:A" chainLoop) = Pending
  /\ outcome (revoke 1000 loopA "did:kilt:A" chainLoop) = Pending.
Proof.
  apply (findAncestorOwnedBy_pending_on_cycle chainLoop "did:kilt:A"
           (fun n => n = loopA \/ n = loopB)); [|left; reflexivity].
  intros n [-> | ->]; (split; [discriminate|]).
  - exists "0xB", loopB. repeat split; auto.
  - exists "0xA", loopA. repeat split; auto.
Defined.

(** ** What the subtree count resolves to *)

Lemma all_resolved_inv {A B} (f : A -> Async B) xs L es bs :
  all f xs L = (es, Resolved bs) ->
  Forall2 (fun x b => exists es1, f x L = (es1, Resolved b)) xs bs.
Proof.
  revert es bs. induction xs as [|x xs IH]; intros es bs.
  - intros [= <- <-]. constructor.
  - cbn [all]. intros Hrun.
    apply bind_resolved_inv in Hrun as (es1 & b & es2 & Hx & Hk & ->).
    apply bind_resolved_inv in Hk as (es3 & bs' & es4 & Hxs & Hk & ->).
    injection Hk as <- <-. constructor; [eauto | eapply IH, Hxs].
Qed.

Lemma chain_getChildren_resolved_inv (n : DelegationNode) L es children :
  chain_getChildren n L = (es, Resolved children) ->
  map Some children
  = map (fun i => delegationNodes L !! i) (childrenIds n).
Proof.
  unfold chain_getChildren. intros Hrun. apply all_resolved_inv in Hrun.
  induction Hrun as [|i c ids cs (es1 & Hi) _ IH]; [reflexivity|].
  simpl. rewrite IH. f_equal.
  unfold bind in Hi. rewrite query_run in Hi.
  destruct (delegationNodes L !! i); [|discriminate].
  injection Hi as _ ->. reflexivity.
Qed.

Lemma getChildren_resolved_inv (this : DelegationNode) L es this' children :
  getChildren this L = (es, Resolved (this', children)) ->
  this' = set_childrenIdentifiers this (refreshedChildrenIds L this)
  /\ map Some children
     = map (fun i => delegationNodes L !! i) (refreshedChildrenIds L this).
Proof.
  intros Hrun. split; [eapply getChildren_object, Hrun|].
  rewrite getChildren_run in Hrun.
  destruct (chain_getChildren _ L) as [es1 [cs | e | ]] eqn:Hc;
    simpl in Hrun; try discriminate.
  injection Hrun as _ _ <-.
  apply chain_getChildren_resolved_inv in Hc. exact Hc.
Qed.

Lemma settle_reduce_add_inv ks L es total :
  settle (reduce_add ks) L = (es, Resolved total) ->
  ks <> [] /\ total = sum_list ks.
Proof.
  destruct ks as [|k ks]; [discriminate|].
  rewrite reduce_add_sum. intros [= _ <-]. split; [discriminate | reflexivity].
Qed.

Lemma height_node_le n cs fuel :
  Forall (fun t => height t <= fuel) cs ->
  height (TNode n cs) <= S fuel.
Proof.
  intros Hcs. simpl. apply le_n_S.
  induction Hcs as [|c cs Hc _ IH]; simpl; lia.
Qed.

Lemma subtreeNodeCount_resolved_tree fuel (this : DelegationNode) L :
  forall es this' k,
    subtreeNodeCount fuel this L = (es, Resolved (this', k)) ->
    exists tr,
      root tr = this /\ unfolds L tr /\ height tr <= fuel
      /\ k = length (descendants tr).
Proof.
  revert this. induction fuel as [|fuel IH]; intros this es this' k.
  - discriminate.
  - cbn [subtreeNodeCount]. intros Hrun.
    apply bind_resolved_inv in Hrun as (es1 & [t children] & es2 & Hg & Hk & _).
    apply getChildren_resolved_inv in Hg as [_ Hmap].
    destruct (Nat.eqb_spec (length children) 0) as [Hlen | Hlen].
    + injection Hk as _ _ <-.
      apply length_zero_iff_nil in Hlen. subst children.
      exists (TNode this []). split; [reflexivity|].
      split; [apply unfolds_node; split; [exact Hmap | constructor]|].
      split; [simpl; lia | reflexivity].
    + apply bind_resolved_inv in Hk as (es3 & ks & es4 & Hall & Hk & _).
      apply bind_resolved_inv in Hk as (es5 & total & es6 & Hsum & Hk & _).
      injection Hk as _ _ <-.
      apply settle_reduce_add_inv in Hsum as [_ ->].
      apply all_resolved_inv in Hall.
      assert (Htrees : exists cs,
                 map root cs = children
                 /\ Forall (unfolds L) cs
                 /\ Forall (fun t => height t <= fuel) cs
                 /\ ks = map (fun c => length (descendants c)) cs).
      { clear Hmap Hlen.
        induction Hall as [|c k children ks (es7 & Hc) _ (cs & Hr & Hu & Hh & Hks)].
        - exists []. repeat split; constructor.
        - apply bind_resolved_inv in Hc as (es8 & [c' k'] & es9 & Hc & Hk & _).
          injection Hk as _ ->.
          apply IH in Hc as (tr & Hroot & Hun & Hht & Hcount).
          exists (tr :: cs). simpl. rewrite Hroot, Hr, <- Hcount, <- Hks.
          repeat split; try constructor; assumption. }
      destruct Htrees as (cs & Hr & Hu & Hh & ->). subst children.
      exists (TNode this cs). split; [reflexivity|].
      split; [apply unfolds_node; split;
              [rewrite <- Hmap, map_map; reflexivity | exact Hu]|].
      split; [apply height_node_le, Hh|].
      rewrite length_descendants, length_map. reflexivity.
Qed.

(** X4: whatever [subtreeNodeCount] resolves to is the size of the part of
    the chain below the node: the children the chain resolves unfold into a
    finite tree rooted at the node, and the count is the number of nodes of
    that tree other than its root. *)
Theorem subtreeNodeCount_sound
    (fuel : nat) (this : DelegationNode) (L : Ledger)
    (es : list Event) (this' : DelegationNode) (k : nat) :
  subtreeNodeCount fuel this L = (es, Resolved (this', k)) ->
  exists tr,
    root tr = this /\ unfolds L tr /\ height tr <= fuel
    /\ k = length (descendants tr).
Proof. apply subtreeNodeCount_resolved_tree. Qed.

Lemma subtreeNodeCount_sound_witness :
  exists tr,
    root tr = nodeR /\ unfolds chain3 tr /\ height tr <= 3
    /\ 2 = length (descendants tr).
Proof.
  apply (subtreeNodeCount_sound 3 nodeR chain3
           [QueryNode "0xR"; QueryNode "0xC1"; QueryNode "0xC1";
            QueryNode "0xC2"; QueryNode "0xC2"] nodeR 2).
  reflexivity.
Defined.









(** ** What [revoke] resolves to *)

Lemma revoke_resolved_inv fuel (this : DelegationNode) did L es this' tx :
  revoke fuel this did L = (es, Resolved (this', tx)) ->
  exists es1 k a es2 c,
    findAncestorOwnedBy fuel this did L
    = (es1, Resolved {| steps := k; node := Some a |})
    /\ subtreeNodeCount fuel this L = (es2, Resolved (this', c))
    /\ tx = revokeTx (id this) k c
    /\ es = es1 ++ es2.
Proof.
  unfold revoke. intros Hrun.
  apply bind_resolved_inv in Hrun as (es1 & [k [a|]] & es2 & Hfind & Hk & ->);
    simpl in Hk; [|discriminate].
  apply bind_resolved_inv in Hk as (es3 & [t c] & es4 & Hcount & Hk & ->).
  injection Hk as <- <- <-.
  exists es1, k, a, es3, c. rewrite app_nil_r.
  rewrite (subtreeNodeCount_id _ _ _ _ _ _ Hcount). auto.
Qed.

(** X6: [revoke] only emits an extrinsic for a DID that owns the node or
    one of its ancestors.  The extrinsic it resolves to is a revocation of
    the node itself, its [maxDepth] is the distance to the first node the
    DID owns, and its [maxRevocations] is the number of descendants the
    chain holds below the node. *)
Theorem revoke_sound
    (fuel : nat) (this : DelegationNode) (did : Did) (L : Ledger)
    (es : list Event) (this' : DelegationNode) (tx : SubmittableExtrinsic) :
  revoke fuel this did L = (es, Resolved (this', tx)) ->
  exists k a tr,
    owned_above L did this k a /\ account a = did
    /\ root tr = this /\ unfolds L tr
    /\ tx = revokeTx (id this) k (length (descendants tr)).
Proof.
  intros Hrun.
  apply revoke_resolved_inv in Hrun
    as (es1 & k & a & es2 & c & Hfind & Hcount & -> & _).
  apply findAncestorOwnedBy_resolved in Hfind as [Hup _]. simpl in Hup.
  pose proof (owned_above_account _ _ _ _ _ Hup) as Ha.
  apply subtreeNodeCount_resolved_tree in Hcount
    as (tr & Hroot & Hun & _ & ->).
  exists k, a, tr. auto.
Qed.

Lemma revoke_sound_witness :
  exists k a tr,
    owned_above chain3 "did:kilt:A" nodeC1 k a /\ account a = "did:kilt:A"
    /\ root tr = nodeC1 /\ unfolds chain3 tr
    /\ revokeTx "0xC1" 1 1 = revokeTx (id nodeC1) k (length (descendants tr)).
Proof.
  apply (revoke_sound 3 nodeC1 "did:kilt:A" chain3
           [QueryNode "0xR"; QueryNode "0xC1"; QueryNode "0xC2";
            QueryNode "0xC2"] nodeC1 (revokeTx "0xC1" 1 1)).
  reflexivity.
Defined.

(** X7: the three cascade requests agree on their bound.  When [revoke]
    resolves, [remove] and [reclaimDeposit] on the same node and chain
    resolve too, and their [maxRemovals] is the [maxRevocations] of
    [revoke]. *)
Theorem cascade_bounds_agree
    (fuel : nat) (this : DelegationNode) (did : Did) (L : Ledger)
    (es : list Event) (this' : DelegationNode)
    (target : NodeId) (depth bound : nat) :
  revoke fuel this did L = (es, Resolved (this', revokeTx target depth bound)) ->
  outcome (remove fuel this L) = Resolved (this', removeTx target bound)
  /\ outcome (reclaimDeposit fuel this L)
     = Resolved (this', reclaimDepositTx target bound).
Proof.
  intros Hrun.
  apply revoke_resolved_inv in Hrun
    as (es1 & k & a & es2 & c & _ & Hcount & Htx & _).
  injection Htx as -> -> ->.
  unfold remove, reclaimDeposit, bind. rewrite Hcount. simpl.
  rewrite (subtreeNodeCount_id _ _ _ _ _ _ Hcount). split; reflexivity.
Qed.

Lemma cascade_bounds_agree_witness :
  outcome (remove 3 nodeC1 chain3) = Resolved (nodeC1, removeTx "0xC1" 1)
  /\ outcome (reclaimDeposit 3 nodeC1 chain3)
     = Resolved (nodeC1, reclaimDepositTx "0xC1" 1).
Proof.
  apply (cascade_bounds_agree 3 nodeC1 "did:kilt:A" chain3
           [QueryNode "0xR"; QueryNode "0xC1"; QueryNode "0xC2";
            QueryNode "0xC2"] nodeC1 "0xC1" 1 1).
  reflexivity.
Defined.

(** X8: the cascade requests change nothing on the object but its cached
    child ids, which they refresh from the chain; in particular they never
    touch its [revoked] flag or its cached hierarchy details. *)
Theorem cascade_keeps_object
    (fuel : nat) (this : DelegationNode) (L : Ledger)
    (es : list Event) (this' : DelegationNode) (tx : SubmittableExtrinsic) :
  (exists did, revoke fuel this did L = (es, Resolved (this', tx)))
  \/ remove fuel this L = (es, Resolved (this', tx))
  \/ reclaimDeposit fuel this L = (es, Resolved (this', tx)) ->
  this' = set_childrenIdentifiers this (refreshedChildrenIds L this)
  /\ revoked this' = revoked this
  /\ hierarchyDetails this' = hierarchyDetails this
  /\ account this' = account this
  /\ parentId this' = parentId this.
Proof.
  intros Hrun.
  assert (Hobj : this'
                 = set_childrenIdentifiers this (refreshedChildrenIds L this)).
  { destruct Hrun as [[did Hrun] | [Hrun | Hrun]].
    - apply revoke_resolved_inv in Hrun
        as (es1 & k & a & es2 & c & _ & Hcount & _).
      eapply subtreeNodeCount_object, Hcount.
    - unfold remove in Hrun.
      apply bind_resolved_inv in Hrun as (es1 & [t c] & es2 & Hcount & Hk & _).
      injection Hk as _ <- _. eapply subtreeNodeCount_object, Hcount.
    - unfold reclaimDeposit in Hrun.
      apply bind_resolved_inv in Hrun as (es1 & [t c] & es2 & Hcount & Hk & _).
      injection Hk as _ <- _. eapply subtreeNodeCount_object, Hcount. }
  subst this'. repeat split.
Qed.

Lemma cascade_keeps_object_witness :
  set_childrenIdentifiers staleR ["0xC1"]
  = set_childrenIdentifiers staleR (refreshedChildrenIds chain3 staleR)
  /\ revoked (set_childrenIdentifiers staleR ["0xC1"]) = revoked staleR
  /\ hierarchyDetails (set_childrenIdentifiers staleR ["0xC1"])
     = hierarchyDetails staleR
  /\ account (set_childrenIdentifiers staleR ["0xC1"]) = account staleR
  /\ parentId (set_childrenIdentifiers staleR ["0xC1"]) = parentId staleR.
Proof.
  apply (cascade_keeps_object 3 staleR chain3
           [QueryNode "0xR"; QueryNode "0xC1"; QueryNode "0xC1";
            QueryNode "0xC2"; QueryNode "0xC2"]
           (set_childrenIdentifiers staleR ["0xC1"]) (removeTx "0xR" 2)).
  right. left. reflexivity.
Defined.

(** ** Reading the state of a node *)



(** X10: the claim type of a hierarchy comes back from a root as it went in:
    [getCTypeHash] on a node built by [newRoot] resolves to the [cTypeHash]
    given to [newRoot], without a query.  On a node without cached details
    it resolves to the claim type the chain holds for the hierarchy id of
    the node, and rejects when the chain holds none. *)
Theorem getCTypeHash_round_trip (L : Ledger) :
  (forall uuid input root,
      newRoot uuid input = Normal root ->
      getCTypeHash root L = ([], Resolved (root, r_cTypeHash input)))
  /\ (forall this,
        hierarchyDetails this = None ->
        getCTypeHash this L
        = ([QueryHierarchy (hierarchyId this)],
           match hierarchies L !! hierarchyId this with
           | Some d => Resolved (set_hierarchyDetails this d, cTypeHash d)
           | None => Rejected (ERROR_HIERARCHY_QUERY (hierarchyId this))
           end)).
Proof.
  split.
  - intros uuid input root. unfold newRoot.
    destruct (new_DelegationNode _) as [created | e]; [|discriminate].
    intros [= <-]. reflexivity.
  - intros this Hd. unfold getCTypeHash, bind.
    rewrite (getHierarchyDetails_uncached _ _ Hd).
    destruct (hierarchies L !! hierarchyId this); reflexivity.
Qed.

Lemma getCTypeHash_round_trip_witness :
  getCTypeHash staleR chainWithoutC1 = ([], Resolved (staleR, "0xCTYPE"))
  /\ getCTypeHash nodeC2 chain3
     = ([QueryHierarchy "0xR"],
        Resolved (set_hierarchyDetails nodeC2 detailsR, "0xCTYPE")).
Proof.
  split.
  - apply (proj1 (getCTypeHash_round_trip chainWithoutC1) "0xR"
             {| r_account := "did:kilt:A"; r_permissions := [ATTEST; DELEGATE];
                r_cTypeHash := "0xCTYPE" |} staleR).
    reflexivity.
  - apply (proj2 (getCTypeHash_round_trip chain3) nodeC2). reflexivity.
Defined.

(** X11: what the two builders return is stored the way they were built.  A
    node returned by [newRoot] is a root, and [store] emits its creation
    whatever the signature; a node returned by [newNode] is never a root, so
    that [store] rejects it without the signature of the delegate and emits
    the delegation with one. *)
Theorem store_after_construction (L : Ledger) :
  (forall uuid input root signature,
      newRoot uuid input = Normal root ->
      isRoot root = true
      /\ store root signature L = ([], Resolved (storeAsRoot root)))
  /\ (forall uuid input n,
        newNode uuid input = Normal n ->
        isRoot n = false
        /\ store n None L = ([], Rejected ERROR_DELEGATION_SIGNATURE_MISSING)
        /\ forall s, store n (Some s) L
                     = ([], Resolved (storeAsDelegation n s))).
Proof.
  split.
  - intros uuid input root signature. unfold newRoot, new_DelegationNode.
    destruct (errorCheck _); [|discriminate]. intros [= <-].
    assert (Hroot : forall i a p d r c,
              isRoot {| id := i; hierarchyId := i; parentId := None;
                        childrenIdentifiers := c; account := a;
                        permissions := p; hierarchyDetails := d;
                        revoked := r |} = true).
    { intros. unfold isRoot. simpl. rewrite String.eqb_refl. reflexivity. }
    unfold store, set_hierarchyDetails. simpl. rewrite Hroot.
    split; reflexivity.
  - intros uuid input n. unfold newNode, new_DelegationNode.
    destruct (errorCheck _); [|discriminate]. intros [= <-].
    unfold store, isRoot. simpl. rewrite andb_false_r.
    repeat split.
Qed.

Lemma store_after_construction_witness :
  (isRoot staleR = true
   /\ store staleR None chain3 = ([], Resolved (storeAsRoot staleR)))
  /\ store (set_childrenIdentifiers draftNode []) None chain3
     = ([], Rejected ERROR_DELEGATION_SIGNATURE_MISSING).
Proof.
  split.
  - apply (proj1 (store_after_construction chain3) "0xR"
             {| r_account := "did:kilt:A"; r_permissions := [ATTEST; DELEGATE];
                r_cTypeHash := "0xCTYPE" |} staleR None).
    reflexivity.
  - apply (proj2 (store_after_construction chain3) "0xNEW"
             {| n_hierarchyId := "0xR"; n_parentId := "0xR";
                n_account := "did:kilt:E"; n_permissions := [ATTEST] |}
             (set_childrenIdentifiers draftNode [])).
    reflexivity.
Defined.

(** ** Children, once resolved *)

(** X12: when [getChildren] resolves, the object lists as many child ids as
    there are children, each child is the record the chain holds under the
    id at its position, the trace is the query for the node followed by one
    query per child id, and calling [getChildren] on the returned object
    gives the same result again. *)
Theorem getChildren_resolved
    (this : DelegationNode) (L : Ledger)
    (es : list Event) (this' : DelegationNode)
    (children : list DelegationNode) :
  getChildren this L = (es, Resolved (this', children)) ->
  length children = length (childrenIds this')
  /\ map Some children
     = map (fun i => delegationNodes L !! i) (childrenIds this')
  /\ es = QueryNode (id this) :: map QueryNode (childrenIds this')
  /\ getChildren this' L = (es, Resolved (this', children)).
Proof.
  intros Hrun.
  destruct (getChildren_resolved_inv _ _ _ _ _ Hrun) as [-> Hmap].
  assert (Hes : es = QueryNode (id this)
                     :: map QueryNode (refreshedChildrenIds L this)).
  { rewrite (getChildren_resolves _ _ _ Hmap) in Hrun.
    injection Hrun as <-. reflexivity. }
  assert (Hids : refreshedChildrenIds L
                   (set_childrenIdentifiers this (refreshedChildrenIds L this))
                 = refreshedChildrenIds L this).
  { unfold refreshedChildrenIds. simpl.
    destruct (delegationNodes L !! id this); reflexivity. }
  split; [|split; [exact Hmap | split; [exact Hes|]]].
  - apply (f_equal length) in Hmap. rewrite !length_map in Hmap. exact Hmap.
  - rewrite (getChildren_resolves _ L children) by (rewrite Hids; exact Hmap).
    rewrite Hids, Hes. reflexivity.
Qed.

Lemma getChildren_resolved_witness :
  getChildren (set_childrenIdentifiers staleR ["0xC1"]) chain3
  = ([QueryNode "0xR"; QueryNode "0xC1"],
     Resolved (set_childrenIdentifiers staleR ["0xC1"], [nodeC1])).
Proof.
  apply (getChildren_resolved staleR chain3
           [QueryNode "0xR"; QueryNode "0xC1"]
           (set_childrenIdentifiers staleR ["0xC1"]) [nodeC1]).
  reflexivity.
Defined.

(** * Properties of the light DID creation options *)

Lemma checkService_passes `{DidUtilsLib} (service : IDidServiceEndpoint) :
  checkService service = Passes <-> acceptable service.
Proof.
  unfold checkService, acceptable.
  destruct (parseDidUrl (service_id service)) as [parsed|].
  - split; [discriminate | intros [Hp _]; discriminate Hp].
  - destruct (String.eqb_spec (service_id service) "authentication") as [-> | Ha];
      [split; [discriminate | intros (_ & Hne & _); contradiction]|].
    destruct (String.eqb_spec (service_id service) "encryption") as [-> | He];
      [split; [discriminate | intros (_ & _ & Hne); contradiction]|].
    simpl. split; auto.
Qed.

Lemma forEach_passes {A} (callback : A -> Checked) xs :
  forEach callback xs = Passes <-> Forall (fun x => callback x = Passes) xs.
Proof.
  induction xs as [|x xs IH]; simpl.
  - split; [constructor | reflexivity].
  - rewrite Forall_cons. destruct (callback x).
    + rewrite IH. tauto.
    + split; [discriminate | intros [Hx _]; discriminate Hx].
Qed.

Lemma forEach_first_failure {A} (callback : A -> Checked) good bad rest e :
  Forall (fun x => callback x = Passes) good ->
  callback bad = Fails e ->
  forEach callback (good ++ bad :: rest) = Fails e.
Proof.
  intros Hgood Hbad. induction Hgood as [|x good Hx _ IH]; simpl.
  - rewrite Hbad. reflexivity.
  - rewrite Hx. exact IH.
Qed.

(** X13: [checkLightDidCreationOptions] returns without throwing exactly
    when the type of the authentication key has a non-empty encoding and
    every service endpoint, if any are given, has an id that is neither a
    DID URI nor one of the names [authentication] and [encryption]. *)
Theorem checkLightDidCreationOptions_passes `{DidUtilsLib}
    (options : LightDidDetailsCreationOpts) :
  checkLightDidCreationOptions options = Passes
  <-> truthy (getEncodingForSigningKeyType
                (key_type (authenticationKey options))) = true
      /\ Forall acceptable (default [] (serviceEndpoints options)).
Proof.
  unfold checkLightDidCreationOptions.
  destruct (truthy _); simpl.
  - destruct (serviceEndpoints options) as [services|]; simpl.
    + rewrite forEach_passes. split.
      * intros Hall. split; [reflexivity|].
        eapply Forall_impl; [exact Hall|]. intros s. apply checkService_passes.
      * intros [_ Hall]. eapply Forall_impl; [exact Hall|].
        intros s. apply checkService_passes.
    + split; [intros _; split; [reflexivity | constructor] | reflexivity].
  - split; [discriminate | intros [Hf _]; discriminate Hf].
Qed.

Lemma checkLightDidCreationOptions_passes_witness :
  @checkLightDidCreationOptions plainDidUtils
    {| authenticationKey := keyA; encryptionKey := Some keyX;
       serviceEndpoints := Some [serviceOk] |} = Passes.
Proof.
  apply (@checkLightDidCreationOptions_passes plainDidUtils). split.
  - reflexivity.
  - constructor; [|constructor].
    split; [reflexivity | split; discriminate].
Defined.

(** X14: the check reports one error, the first it meets.  A key type
    without encoding is reported as [ERROR_UNSUPPORTED_KEY] whatever the
    service endpoints; with a supported key type, the error is that of the
    first service endpoint that is not acceptable: the message for an
    invalid id when its id is a DID URI, the message for a reserved keyword
    otherwise. *)
Theorem checkLightDidCreationOptions_first_error `{DidUtilsLib}
    (options : LightDidDetailsCreationOpts) :
  (truthy (getEncodingForSigningKeyType
             (key_type (authenticationKey options))) = false ->
   checkLightDidCreationOptions options = Fails ERROR_UNSUPPORTED_KEY)
  /\ (forall good bad rest,
        truthy (getEncodingForSigningKeyType
                  (key_type (authenticationKey options))) = true ->
        serviceEndpoints options = Some (good ++ bad :: rest) ->
        Forall acceptable good ->
        ~ acceptable bad ->
        checkLightDidCreationOptions options
        = Fails (Error
                   match parseDidUrl (service_id bad) with
                   | Some _ => invalidServiceIdMessage (service_id bad)
                   | None => reservedServiceIdMessage (service_id bad)
                   end)).
Proof.
  unfold checkLightDidCreationOptions. split.
  - intros ->. reflexivity.
  - intros good bad rest -> -> Hgood Hbad. simpl.
    apply forEach_first_failure.
    + eapply Forall_impl; [exact Hgood|]. intros s. apply checkService_passes.
    + pose proof (checkService_passes bad) as Hiff.
      unfold checkService in *.
      destruct (parseDidUrl (service_id bad)); [reflexivity|].
      destruct (_ || _); [reflexivity|].
      exfalso. apply Hbad, Hiff. reflexivity.
Qed.

Lemma checkLightDidCreationOptions_first_error_witness :
  @checkLightDidCreationOptions plainDidUtils
    {| authenticationKey := keyX; encryptionKey := None;
       serviceEndpoints := Some [serviceDid] |} = Fails ERROR_UNSUPPORTED_KEY
  /\ @checkLightDidCreationOptions plainDidUtils
       {| authenticationKey := keyA; encryptionKey := None;
          serviceEndpoints := Some [serviceOk; serviceReserved; serviceDid] |}
     = Fails (Error (reservedServiceIdMessage "encryption")).
Proof.
  split.
  - apply (@checkLightDidCreationOptions_first_error plainDidUtils).
    reflexivity.
  - apply (proj2 (@checkLightDidCreationOptions_first_error plainDidUtils _)
             [serviceOk] serviceReserved [serviceDid]).
    + reflexivity.
    + reflexivity.
    + constructor; [|constructor].
      split; [reflexivity | split; discriminate].
    + intros (_ & _ & Hne). apply Hne. reflexivity.
Defined.

Lemma serialize_entries `{CborLib} encryptionKey serviceEndpoints :
  serializeAndEncodeAdditionalLightDidDetails encryptionKey serviceEndpoints
  = match detailsEntries encryptionKey serviceEndpoints with
    | [] => None
    | entries => Some (toString_base64 (cborEncode entries))
    end.
Proof.
  unfold serializeAndEncodeAdditionalLightDidDetails, detailsEntries.
  destruct encryptionKey as [key|];
    destruct serviceEndpoints as [[|service services]|]; reflexivity.
Qed.

(** X15: [serializeAndEncodeAdditionalLightDidDetails] returns [null]
    exactly when there is no encryption key and no service endpoint; an
    empty list of service endpoints is serialized like an absent one; and
    what is encoded otherwise is the key under ["e"], if any, followed by
    the services under ["s"], if any. *)
Theorem serialize_null_or_entries `{CborLib}
    (encryptionKey : option INewPublicKey)
    (serviceEndpoints : option (list IDidServiceEndpoint)) :
  (serializeAndEncodeAdditionalLightDidDetails encryptionKey serviceEndpoints
   = None
   <-> encryptionKey = None
       /\ (serviceEndpoints = None \/ serviceEndpoints = Some []))
  /\ serializeAndEncodeAdditionalLightDidDetails encryptionKey (Some [])
     = serializeAndEncodeAdditionalLightDidDetails encryptionKey None
  /\ (forall encoded,
        serializeAndEncodeAdditionalLightDidDetails
          encryptionKey serviceEndpoints = Some encoded ->
        encoded
        = toString_base64
            (cborEncode (detailsEntries encryptionKey serviceEndpoints))).
Proof.
  rewrite !serialize_entries. split; [|split].
  - destruct encryptionKey as [key|];
      destruct serviceEndpoints as [[|service services]|]; simpl;
      split; try discriminate; try tauto;
      intros [Hk Hs]; try discriminate Hk;
      destruct Hs as [Hs | Hs]; discriminate Hs.
  - destruct encryptionKey; reflexivity.
  - intros encoded.
    destruct (detailsEntries encryptionKey serviceEndpoints);
      [discriminate|]. intros [= <-]. reflexivity.
Qed.

Lemma serialize_null_or_entries_witness :
  @serializeAndEncodeAdditionalLightDidDetails unaryCbor None (Some [])
  = None.
Proof.
  apply (proj1 (@serialize_null_or_entries unaryCbor None (Some []))).
  split; [reflexivity | right; reflexivity].
Defined.

Lemma unaryCbor_round_trip : @codec_round_trip unaryCbor.
Proof.
  intros m. unfold cborDecode_base64, toString_base64, cborEncode, unaryCbor.
  rewrite String.list_byte_of_string_of_list_byte, repeat_length.
  rewrite Pos2Nat.id, decode_encode. reflexivity.
Qed.

(** X16: the decoder reads the two properties the encoder writes.  With a
    CBOR library that decodes what it encoded,
    [decodeAndDeserializeAdditionalLightDidDetails] on the string that
    [serializeAndEncodeAdditionalLightDidDetails] returned gives back the
    encryption key that went in, and the service endpoints that went in. An
    empty list of service endpoints with an encryption key comes back as no
    service endpoints. *)
Theorem lightDid_details_round_trip `{CborLib}
    (encryptionKey : option INewPublicKey)
    (serviceEndpoints : option (list IDidServiceEndpoint))
    (encoded : string) (version : nat) :
  codec_round_trip ->
  serializeAndEncodeAdditionalLightDidDetails encryptionKey serviceEndpoints
  = Some encoded ->
  decodeAndDeserializeAdditionalLightDidDetails encoded version
  = {| decoded_encryptionKey := KeyValue <$> encryptionKey;
       decoded_serviceEndpoints :=
         match serviceEndpoints with
         | Some (service :: services) =>
             Some (EndpointsValue (service :: services))
         | _ => None
         end |}.
Proof.
  intros Hcodec Hser. rewrite serialize_entries in Hser.
  assert (Henc : encoded
                 = toString_base64
                     (cborEncode (detailsEntries encryptionKey serviceEndpoints))).
  { destruct (detailsEntries encryptionKey serviceEndpoints);
      [discriminate|]. injection Hser as <-. reflexivity. }
  subst encoded.
  unfold decodeAndDeserializeAdditionalLightDidDetails.
  rewrite Hcodec. unfold detailsEntries.
  destruct encryptionKey as [key|];
    destruct serviceEndpoints as [[|service services]|]; reflexivity.
Qed.

Lemma lightDid_details_round_trip_witness :
  @decodeAndDeserializeAdditionalLightDidDetails unaryCbor
    (@toString_base64 unaryCbor
       (@cborEncode unaryCbor (detailsEntries (Some keyX) (Some []))))
    1
  = {| decoded_encryptionKey := Some (KeyValue keyX);
       decoded_serviceEndpoints := None |}.
Proof.
  apply (@lightDid_details_round_trip unaryCbor (Some keyX) (Some [])).
  - apply unaryCbor_round_trip.
  - apply (@serialize_entries unaryCbor).
Defined.
